(** * neofs-node: local object storage

    A shallow embedding of the parts of the local object storage that the
    specification speaks about:

    - [Meta]: the metabase.  [delete.go] (Delete, deleteGroup, delete,
      deleteObject, parentLength, the del*IndexItem helpers, delUniqueIndexes)
      is embedded from the source; Put, Get, Head, Exists, Inhume, Lock and
      Reset are not part of the checked-in sources and are modelled from the
      specification.
    - [Shard]: Open, Init, Close and refillMetabase of [control.go], embedded
      from the source; blobstor.IterateObjects and the Init methods of the
      components are not part of the checked-in sources.
    - [Engine]: the fan-out of [exists.go].

    The bolt transaction is an explicit value [Tx] threaded through the calls;
    fallible functions return [Result]. *)

From stdpp Require Import base option list gmap strings fin_maps.

Set Default Proof Using "Type".

(** ** Identifiers, objects, errors *)

(** Container and object identifiers are 32-byte values; only their identity
    matters here, so they are numbers. *)
Abbreviation ContainerID := N (only parsing).
Abbreviation ObjectID := N (only parsing).
Abbreviation SplitID := N (only parsing).
Abbreviation BlobovniczaID := N (only parsing).

Record Address := mkAddress { addrCID : ContainerID; addrOID : ObjectID }.

Global Instance Address_eq_dec : EqDecision Address.
Proof. solve_decision. Defined.

Global Instance Address_countable : Countable Address :=
  inj_countable' (λ a, (addrCID a, addrOID a)) (λ p, mkAddress p.1 p.2)
    (λ a, match a with mkAddress _ _ => eq_refl end).

(** objectSDK.Type: the four known kinds, and any other number of the wire
    format (the [default] branches of the source). *)
Inductive ObjType :=
| TypeRegular
| TypeTombstone
| TypeStorageGroup
| TypeLock
| TypeOther (n : N).

Global Instance ObjType_eq_dec : EqDecision ObjType.
Proof. solve_decision. Defined.

(** objectSDK.Object: the fields the storage reads.  A split child carries a
    copy of its parent's header inline ([Parent]). *)
#[warnings="-register-all"]
Inductive Object := mkObject {
  ID : ObjectID;
  ObjContainerID : ContainerID;
  Type_ : ObjType;
  ParentID : option ObjectID;
  Parent : option Object;
  ObjSplitID : option SplitID;
  Children : list ObjectID;
  Attributes : list (string * string);
  Payload : list N
}.

(** object.AddressOf *)
Definition AddressOf (obj : Object) : Address :=
  mkAddress (ObjContainerID obj) (ID obj).

(** obj.CutPayload(): the header, payload elided. *)
Definition CutPayload (obj : Object) : Object :=
  mkObject (ID obj) (ObjContainerID obj) (Type_ obj) (ParentID obj) (Parent obj)
           (ObjSplitID obj) (Children obj) (Attributes obj) [].

Record SplitInfo := mkSplitInfo {
  siSplitID : option SplitID;
  siLastPart : option ObjectID;
  siLink : option ObjectID
}.

(** Errors.  [ErrWrap msg e] is [fmt.Errorf(msg + ": %w", e)]; [ErrMsg] an
    error made from text only. *)
Inductive Error :=
| ObjectNotFound
| ObjectAlreadyRemoved
| ObjectLocked
| SplitInfoError (si : SplitInfo)
| ErrUnknownObjectType
| ErrMalformed
| ErrIO
| ErrMsg (msg : string)
| ErrWrap (msg : string) (e : Error).

(** errors.As(err, new(apistatus.ObjectNotFound)) walks the %w chain. *)
Fixpoint IsErrNotFound (e : Error) : bool :=
  match e with
  | ObjectNotFound => true
  | ErrWrap _ e' => IsErrNotFound e'
  | _ => false
  end.

(** errors.As(err, new(apistatus.ObjectAlreadyRemoved)) *)
Fixpoint IsErrRemoved (e : Error) : bool :=
  match e with
  | ObjectAlreadyRemoved => true
  | ErrWrap _ e' => IsErrRemoved e'
  | _ => false
  end.

Inductive Result (A : Type) :=
| Ok (a : A)
| Err (e : Error).
Arguments Ok {A} a.
Arguments Err {A} e.

Definition rbind {A B} (r : Result A) (f : A → Result B) : Result B :=
  match r with
  | Ok a => f a
  | Err e => Err e
  end.

Notation "x ←r e1 ; e2" := (rbind e1 (λ x, e2))
  (at level 100, e1 at next level, e2 at level 100, right associativity,
   format "'[v' x  ←r  e1 ;  '/' e2 ']'").

(** ** The metabase *)

Module Meta.

(** *** The bolt store

    A bolt database is a map from bucket names to buckets, a bucket a map
    from keys to values.  Keys and values are byte strings in the source; the
    constructors below stand for the injective encodings ([objectKey],
    [addressKey], the marshalled header, [encodeList], ...), so a value read
    back under the wrong decoder is a decoding error, as in the source. *)

Inductive BucketName :=
| primaryBucketName (cnr : ContainerID)
| tombstoneBucketName (cnr : ContainerID)
| storageGroupBucketName (cnr : ContainerID)
| bucketNameLockers (cnr : ContainerID)
| parentBucketName (cnr : ContainerID)
| smallBucketName (cnr : ContainerID)
| rootBucketName (cnr : ContainerID)
| bucketNameLocked (cnr : ContainerID)
| attributeBucketName (cnr : ContainerID) (attr : string)
| graveyardBucketName
| toMoveItBucketName.

Global Instance BucketName_eq_dec : EqDecision BucketName.
Proof. solve_decision. Defined.

Definition BucketName_code (b : BucketName) : N * N * string :=
  match b with
  | primaryBucketName c => (0, c, "")
  | tombstoneBucketName c => (1, c, "")
  | storageGroupBucketName c => (2, c, "")
  | bucketNameLockers c => (3, c, "")
  | parentBucketName c => (4, c, "")
  | smallBucketName c => (5, c, "")
  | rootBucketName c => (6, c, "")
  | bucketNameLocked c => (7, c, "")
  | attributeBucketName c a => (8, c, a)
  | graveyardBucketName => (9, 0, "")
  | toMoveItBucketName => (10, 0, "")
  end%N.

Definition BucketName_decode (p : N * N * string) : BucketName :=
  match p with
  | (0, c, _) => primaryBucketName c
  | (1, c, _) => tombstoneBucketName c
  | (2, c, _) => storageGroupBucketName c
  | (3, c, _) => bucketNameLockers c
  | (4, c, _) => parentBucketName c
  | (5, c, _) => smallBucketName c
  | (6, c, _) => rootBucketName c
  | (7, c, _) => bucketNameLocked c
  | (8, c, a) => attributeBucketName c a
  | (9, _, _) => graveyardBucketName
  | _ => toMoveItBucketName
  end%N.

Global Instance BucketName_countable : Countable BucketName :=
  inj_countable' BucketName_code BucketName_decode
    (λ b, match b with
          | primaryBucketName _ | tombstoneBucketName _
          | storageGroupBucketName _ | bucketNameLockers _
          | parentBucketName _ | smallBucketName _ | rootBucketName _
          | bucketNameLocked _ | attributeBucketName _ _
          | graveyardBucketName | toMoveItBucketName => eq_refl
          end).

Inductive Key :=
| objectKey (id : ObjectID)
| addressKey (addr : Address)
| attrKey (val : string).

Global Instance Key_eq_dec : EqDecision Key.
Proof. solve_decision. Defined.

Global Instance Key_countable : Countable Key :=
  inj_countable'
    (λ k, match k with
          | objectKey o => inl o
          | addressKey a => inr (inl a)
          | attrKey s => inr (inr s)
          end)
    (λ c, match c with
          | inl o => objectKey o
          | inr (inl a) => addressKey a
          | inr (inr s) => attrKey s
          end)
    (λ k, match k with
          | objectKey _ | addressKey _ | attrKey _ => eq_refl
          end).

Inductive Value :=
| VObject (hdr : Object)            (* a marshalled header *)
| VList (lst : list ObjectID)       (* encodeList *)
| VBlz (id : BlobovniczaID)         (* blobovnicza back-reference *)
| VAddr (addr : Address)            (* graveyard: the tombstone's address *)
| VMark                             (* a presence marker *)
| VSubBucket (keys : gset N).       (* a nested bucket of object keys (FKBT) *)

Abbreviation Bucket := (gmap Key Value).
Abbreviation Tx := (gmap BucketName (gmap Key Value)).

(** tx.Bucket(name): [None] is the nil bucket. *)
Definition TxBucket (tx : Tx) (name : BucketName) : option Bucket := tx !! name.

(** getFromBucket(tx, name, key): nil when the bucket or the key is absent. *)
Definition getFromBucket (tx : Tx) (name : BucketName) (key : Key) : option Value :=
  TxBucket tx name ≫= λ bkt, bkt !! key.

(** [bkt := tx.Bucket(name); if bkt != nil { bkt.Delete(key) }] *)
Definition bucketDelete (tx : Tx) (name : BucketName) (key : Key) : Tx :=
  match TxBucket tx name with
  | Some bkt => <[name := delete key bkt]> tx
  | None => tx
  end.

(** [bkt, _ := tx.CreateBucketIfNotExists(name); bkt.Put(key, v)] *)
Definition bucketPut (tx : Tx) (name : BucketName) (key : Key) (v : Value) : Tx :=
  <[name := <[key := v]> (default ∅ (TxBucket tx name))]> tx.

(** *** Decoders *)

(** obj.Unmarshal(data) of a header read from a bucket. *)
Definition unmarshalObject (v : Value) : Result Object :=
  match v with
  | VObject hdr => Ok hdr
  | _ => Err ErrMalformed
  end.

(** decodeList: no data is the empty list; data that is not an encoded list
    is an error. *)
Definition decodeList (data : option Value) : Result (list ObjectID) :=
  match data with
  | None => Ok []
  | Some (VList lst) => Ok lst
  | Some _ => Err ErrMalformed
  end.

(** *** Operations that are not in the checked-in sources *)

(** Modelled from the spec: the graveyard test behind AlreadyRemoved
    ("returns AlreadyRemoved if graveyard contains the address"). *)
Definition inGraveyard (tx : Tx) (addr : Address) : bool :=
  bool_decide (is_Some (getFromBucket tx graveyardBucketName (addressKey addr))).

(** Modelled from the spec: the header of [addr] in the bucket of its type,
    probing primary, tombstone, storagegroup and lockers of the container. *)
Definition getHeader (tx : Tx) (addr : Address) : option Value :=
  let cnr := addrCID addr in
  let key := objectKey (addrOID addr) in
  match getFromBucket tx (primaryBucketName cnr) key with
  | Some v => Some v
  | None =>
    match getFromBucket tx (tombstoneBucketName cnr) key with
    | Some v => Some v
    | None =>
      match getFromBucket tx (storageGroupBucketName cnr) key with
      | Some v => Some v
      | None => getFromBucket tx (bucketNameLockers cnr) key
      end
    end
  end.

(** The header of a stored child, read from the primary bucket. *)
Definition childHeader (tx : Tx) (cnr : ContainerID) (child : ObjectID) : option Object :=
  match getFromBucket tx (primaryBucketName cnr) (objectKey child) with
  | Some (VObject hdr) => Some hdr
  | _ => None
  end.

(** Modelled from the spec: the split information {splitID, lastPart, link}
    of a virtual object, from the headers of its stored children: a child
    that lists Children is the linking object, one that lists none is the
    last part; the split ID is the one the children carry. *)
Definition getSplitInfo (tx : Tx) (cnr : ContainerID) (lst : list ObjectID) : SplitInfo :=
  let hdrs := omap (childHeader tx cnr) lst in
  {| siSplitID := last hdrs ≫= ObjSplitID;
     siLastPart := ID <$> last (filter (λ hdr, Children hdr = []) hdrs);
     siLink := ID <$> last (filter (λ hdr, Children hdr ≠ []) hdrs) |}.

(** Modelled from the spec (split-assembly on Get): "if primary(cid)[oid] is
    absent but parent(cid)[oid] is non-empty, pick any child, read its
    header, return a synthetic parent header"; with [raw] set the answer is
    the SplitInfoError instead.  The child picked is the last of the list. *)
Definition getVirtualObject (tx : Tx) (addr : Address) (raw : bool) : Result Object :=
  let cnr := addrCID addr in
  lst ←r decodeList (getFromBucket tx (parentBucketName cnr) (objectKey (addrOID addr)));
  match lst with
  | [] => Err ObjectNotFound
  | _ :: _ =>
    if raw then Err (SplitInfoError (getSplitInfo tx cnr lst))
    else match (last lst ≫= childHeader tx cnr) ≫= Parent with
         | Some par => Ok par
         | None => Err ObjectNotFound
         end
  end.

(** Modelled from the spec: db.get(tx, addr, checkGraveyard, raw), the reader
    behind Get and Head, called by [delete] with checkGraveyard = false and
    raw = true. *)
Definition get (tx : Tx) (addr : Address) (checkGraveyard raw : bool) : Result Object :=
  if checkGraveyard && inGraveyard tx addr then Err ObjectAlreadyRemoved
  else match getHeader tx addr with
       | Some data => unmarshalObject data
       | None => getVirtualObject tx addr raw
       end.

(** Modelled from the spec: Get(addr, raw_only). *)
Definition Get (tx : Tx) (addr : Address) (raw : bool) : Result Object :=
  get tx addr true raw.

(** Modelled from the spec: Head(addr, raw), "header with payload elided.
    Same split semantics".  The metabase keeps headers only. *)
Definition Head (tx : Tx) (addr : Address) (raw : bool) : Result Object :=
  get tx addr true raw.

(** Modelled from the spec: Exists(addr), "returns true for any known index;
    returns AlreadyRemoved if graveyard contains the address". *)
Definition Exists (tx : Tx) (addr : Address) : Result bool :=
  if inGraveyard tx addr then Err ObjectAlreadyRemoved
  else Ok (bool_decide (is_Some (getHeader tx addr))
           || bool_decide (is_Some (getFromBucket tx (parentBucketName (addrCID addr))
                                                  (objectKey (addrOID addr))))).

(** The header bucket matching an object type. *)
Definition typedBucketName (t : ObjType) (cnr : ContainerID) : option BucketName :=
  match t with
  | TypeRegular => Some (primaryBucketName cnr)
  | TypeTombstone => Some (tombstoneBucketName cnr)
  | TypeStorageGroup => Some (storageGroupBucketName cnr)
  | TypeLock => Some (bucketNameLockers cnr)
  | TypeOther _ => None
  end.

(** namedBucketItem *)
Record namedBucketItem := mkItem {
  name : BucketName;
  key : Key;
  val : ObjectID
}.

(** Modelled from the spec: the list indexes of an object, "parent(cid):
    parent_object_id -> child_object_id list". *)
Definition listIndexes (obj : Object) : list namedBucketItem :=
  match ParentID obj with
  | Some pid => [mkItem (parentBucketName (ObjContainerID obj)) (objectKey pid) (ID obj)]
  | None => []
  end.

(** Modelled from the spec: the FKBT indexes of an object, "attrN(cid,
    attr_name): attr_value -> object_id list". *)
Definition fkbtIndexes (obj : Object) : list namedBucketItem :=
  (λ kv, mkItem (attributeBucketName (ObjContainerID obj) kv.1) (attrKey kv.2) (ID obj))
    <$> Attributes obj.

(** Modelled from the spec: adding a child to a list index. *)
Definition putListIndexItem (tx : Tx) (item : namedBucketItem) : Result Tx :=
  lst ←r decodeList (getFromBucket tx (name item) (key item));
  Ok (if bool_decide (val item ∈ lst) then tx
      else bucketPut tx (name item) (key item) (VList (lst ++ [val item]))).

(** Modelled from the spec: adding an object to an FKBT index. *)
Definition putFKBTIndexItem (tx : Tx) (item : namedBucketItem) : Result Tx :=
  match getFromBucket tx (name item) (key item) with
  | None => Ok (bucketPut tx (name item) (key item) (VSubBucket {[val item]}))
  | Some (VSubBucket keys) =>
    Ok (bucketPut tx (name item) (key item) (VSubBucket ({[val item]} ∪ keys)))
  | Some _ => Err ErrMalformed
  end.

(** Modelled from the spec: updateListIndexes / updateFKBTIndexes apply [f]
    to every index item of the object, stopping at the first error. *)
Fixpoint updateIndexes (f : Tx → namedBucketItem → Result Tx)
    (tx : Tx) (items : list namedBucketItem) : Result Tx :=
  match items with
  | [] => Ok tx
  | item :: rest => tx' ←r f tx item; updateIndexes f tx' rest
  end.

Definition updateListIndexes (tx : Tx) (obj : Object)
    (f : Tx → namedBucketItem → Result Tx) : Result Tx :=
  updateIndexes f tx (listIndexes obj).

Definition updateFKBTIndexes (tx : Tx) (obj : Object)
    (f : Tx → namedBucketItem → Result Tx) : Result Tx :=
  updateIndexes f tx (fkbtIndexes obj).

(** Modelled from the spec: Put(object, blob_ref), "inserts into the header
    bucket matching object.Type, inserts/updates small(cid) with blob_ref,
    updates root, parent, and each attribute FKBT.  If address is in
    graveyard, returns AlreadyRemoved without mutation".  An object without a
    parent reference is a top-level object and gets the root marker. *)
Definition put (tx : Tx) (obj : Object) (blzID : option BlobovniczaID) : Result Tx :=
  let addr := AddressOf obj in
  let cnr := addrCID addr in
  let objKey := objectKey (addrOID addr) in
  if inGraveyard tx addr then Err ObjectAlreadyRemoved
  else match typedBucketName (Type_ obj) cnr with
       | None => Err ErrUnknownObjectType
       | Some bucketName =>
         let tx := bucketPut tx bucketName objKey (VObject (CutPayload obj)) in
         let tx := match blzID with
                   | Some id => bucketPut tx (smallBucketName cnr) objKey (VBlz id)
                   | None => tx
                   end in
         let tx := match ParentID obj with
                   | None => bucketPut tx (rootBucketName cnr) objKey VMark
                   | Some _ => tx
                   end in
         tx ←r updateListIndexes tx obj putListIndexItem;
         updateFKBTIndexes tx obj putFKBTIndexItem
       end.

(** Modelled from the spec: "a lock-referenced object": the lockers recorded
    for the address. *)
Definition objectLocked (tx : Tx) (addr : Address) : bool :=
  match getFromBucket tx (bucketNameLocked (addrCID addr)) (objectKey (addrOID addr)) with
  | Some (VList (_ :: _)) => true
  | _ => false
  end.

(** Modelled from the spec: Inhume(tombstone_addr, members...), "writes each
    member into graveyard with value = tombstone address.  Fails with
    ObjectLocked if any member is currently locked; the failure leaves the
    graveyard unchanged". *)
Definition inhume (tx : Tx) (tomb : Address) (target : list Address) : Result Tx :=
  if existsb (objectLocked tx) target then Err ObjectLocked
  else Ok (foldl (λ tx addr, bucketPut tx graveyardBucketName (addressKey addr) (VAddr tomb))
                 tx target).

(** Modelled from the spec: Lock(locker_addr, targets...), "creates a locker
    entry mapping each target to locker_addr.  A target may have many
    lockers". *)
Definition lock (tx : Tx) (locker : Address) (targets : list Address) : Result Tx :=
  updateIndexes putListIndexItem tx
    ((λ t, mkItem (bucketNameLocked (addrCID t)) (objectKey (addrOID t)) (addrOID locker))
       <$> targets).

(** Modelled from the spec: Reset(), "wipes every bucket". *)
Definition reset (tx : Tx) : Result Tx := Ok ∅.

(** A bolt Update transaction: all or nothing. *)
Definition Update (tx : Tx) (f : Tx → Result Tx) : Tx * option Error :=
  match f tx with
  | Ok tx' => (tx', None)
  | Err e => (tx, Some e)
  end.

(** *** delete.go, from the source *)

(** referenceNumber.  [all] and [cur] are Go ints; [cur] is bounded by the
    length of the batch and [all] by the length of a stored list, so they
    are natural numbers here. *)
Record referenceNumber := mkRef {
  all : nat;
  cur : nat;
  addr : Address;
  obj : Object
}.

(** referenceCounter is map[string]*referenceNumber, keyed by the textual
    form of the parent's address, which is injective; the key is the address. *)
Abbreviation referenceCounter := (gmap Address referenceNumber).

(** parentLength returns amount of available children from parentid index. *)
Definition parentLength (tx : Tx) (addr : Address) : nat :=
  match TxBucket tx (parentBucketName (addrCID addr)) with
  | None => 0
  | Some bkt =>
    match decodeList (bkt !! objectKey (addrOID addr)) with
    | Err _ => 0
    | Ok lst => length lst
    end
  end.

(** delUniqueIndexItem (the item's name and key; it has no value). *)
Definition delUniqueIndexItem (tx : Tx) (name : BucketName) (key : Key) : Tx :=
  bucketDelete tx name key.

(** delFKBTIndexItem *)
Definition delFKBTIndexItem (tx : Tx) (item : namedBucketItem) : Result Tx :=
  match TxBucket tx (name item) with
  | None => Ok tx
  | Some bkt =>
    match bkt !! key item with
    | Some (VSubBucket keys) =>
      Ok (bucketPut tx (name item) (key item) (VSubBucket (keys ∖ {[val item]})))
    | _ => Ok tx
    end
  end.

(** The loop of delListIndexItem: drop the first element equal to [v]. *)
Fixpoint removeFirst (v : ObjectID) (lst : list ObjectID) : list ObjectID :=
  match lst with
  | [] => []
  | x :: rest => if decide (v = x) then rest else x :: removeFirst v rest
  end.

(** delListIndexItem *)
Definition delListIndexItem (tx : Tx) (item : namedBucketItem) : Result Tx :=
  match TxBucket tx (name item) with
  | None => Ok tx
  | Some bkt =>
    match decodeList (bkt !! key item) with
    | Err _ => Ok tx
    | Ok [] => Ok tx
    | Ok lst =>
      match removeFirst (val item) lst with
      | [] => Ok (bucketDelete tx (name item) (key item))
      | lst' => Ok (bucketPut tx (name item) (key item) (VList lst'))
      end
    end
  end.

(** delUniqueIndexes *)
Definition delUniqueIndexes (tx : Tx) (obj : Object) (isParent : bool) : Result Tx :=
  let addr := AddressOf obj in
  let objKey := objectKey (addrOID addr) in
  let addrKey := addressKey addr in
  tx ←r (if negb isParent then
           match Type_ obj with
           | TypeRegular =>
             Ok (delUniqueIndexItem tx (primaryBucketName (addrCID addr)) objKey)
           | TypeTombstone =>
             Ok (delUniqueIndexItem tx (tombstoneBucketName (addrCID addr)) objKey)
           | TypeStorageGroup =>
             Ok (delUniqueIndexItem tx (storageGroupBucketName (addrCID addr)) objKey)
           | TypeLock =>
             Ok (delUniqueIndexItem tx (bucketNameLockers (addrCID addr)) objKey)
           | TypeOther _ => Err ErrUnknownObjectType
           end
         else
           Ok (delUniqueIndexItem tx (parentBucketName (ObjContainerID obj)) objKey));
  let tx := delUniqueIndexItem tx (smallBucketName (addrCID addr)) objKey in
  let tx := delUniqueIndexItem tx (rootBucketName (addrCID addr)) objKey in
  let tx := delUniqueIndexItem tx toMoveItBucketName addrKey in
  Ok tx.

(** deleteObject *)
Definition deleteObject (tx : Tx) (obj : Object) (isParent : bool) : Result Tx :=
  match delUniqueIndexes tx obj isParent with
  | Err _ => Err (ErrMsg "can't remove unique indexes")
  | Ok tx =>
    match updateListIndexes tx obj delListIndexItem with
    | Err e => Err (ErrWrap "can't remove list indexes" e)
    | Ok tx =>
      match updateFKBTIndexes tx obj delFKBTIndexItem with
      | Err e => Err (ErrWrap "can't remove fake bucket tree indexes" e)
      | Ok tx => Ok tx
      end
    end
  end.

(** The entry of the parent of a deleted child: found or created on first
    sight, then [nRef.cur++] through the shared pointer. *)
Definition countReference (tx : Tx) (parent : Object) (refCounter : referenceCounter)
    : referenceCounter :=
  let parAddr := AddressOf parent in
  let nRef := match refCounter !! parAddr with
              | Some nRef => nRef
              | None => mkRef (parentLength tx parAddr) 0 parAddr parent
              end in
  <[parAddr := mkRef (all nRef) (S (cur nRef)) (addr nRef) (obj nRef)]> refCounter.

(** delete.  Removing a key from the graveyard bucket of a writable
    transaction does not fail. *)
Definition delete (tx : Tx) (addr : Address) (refCounter : referenceCounter)
    : Result (Tx * referenceCounter) :=
  (* remove record from graveyard *)
  let tx := bucketDelete tx graveyardBucketName (addressKey addr) in
  (* unmarshal object, work only with physically stored (raw == true) objects *)
  match get tx addr false true with
  | Err err => if IsErrNotFound err then Ok (tx, refCounter) else Err err
  | Ok obj =>
    (* if object is an only link to a parent, then remove parent *)
    let refCounter := match Parent obj with
                      | Some parent => countReference tx parent refCounter
                      | None => refCounter
                      end in
    (* remove object *)
    tx ←r deleteObject tx obj false;
    Ok (tx, refCounter)
  end.

(** The first loop of deleteGroup. *)
Fixpoint deleteEach (tx : Tx) (addrs : list Address) (refCounter : referenceCounter)
    : Result (Tx * referenceCounter) :=
  match addrs with
  | [] => Ok (tx, refCounter)
  | a :: rest =>
    match delete tx a refCounter with
    | Err err => Err err
    | Ok (tx, refCounter) => deleteEach tx rest refCounter
    end
  end.

(** The second loop of deleteGroup, over an enumeration of the counter's
    entries. *)
Fixpoint deleteParents (tx : Tx) (refs : list referenceNumber) : Result Tx :=
  match refs with
  | [] => Ok tx
  | refNum :: rest =>
    if decide (cur refNum = all refNum) then
      match deleteObject tx (obj refNum) true with
      | Err err => Err err
      | Ok tx => deleteParents tx rest
      end
    else deleteParents tx rest
  end.

(** deleteGroup.  Go ranges over the map in an unspecified order; this is the
    run in the order of [map_to_list]. *)
Definition deleteGroup (tx : Tx) (addrs : list Address) : Result Tx :=
  match deleteEach tx addrs ∅ with
  | Err err => Err err
  | Ok (tx, refCounter) => deleteParents tx (snd <$> map_to_list refCounter)
  end.

(** deleteGroup with the map ranged over in the order [refs]: any outcome of
    the Go code is one of these. *)
Definition deleteGroupIn (tx : Tx) (addrs : list Address)
    (order : referenceCounter → list referenceNumber) : Result Tx :=
  match deleteEach tx addrs ∅ with
  | Err err => Err err
  | Ok (tx, refCounter) => deleteParents tx (order refCounter)
  end.

(** db.Delete: the group deletion in one Update transaction (the log lines
    written on success are not modelled). *)
Definition Delete (tx : Tx) (addrs : list Address) : Tx * option Error :=
  Update tx (λ tx, deleteGroup tx addrs).

(** *** Sample data *)

(** A split parent that is not stored itself, and its last part. *)
Definition sampleParent : Object :=
  mkObject 100 1 TypeRegular None None None [] [("FileName", "cat.jpg")] [].

Definition sampleChild : Object :=
  mkObject 11 1 TypeRegular (Some 100%N) (Some sampleParent) (Some 7%N) []
           [("foo", "bar")] [1%N; 2%N].

Definition sampleObject : Object :=
  mkObject 20 1 TypeRegular None None None [] [("foo", "bar")] [5%N].

Definition sampleTombAddress : Address := mkAddress 1 90.

(** The metabase after Put(sampleChild). *)
Definition txChild : Tx :=
  (Update ∅ (λ tx, put tx sampleChild (Some 3%N))).1.

(** The metabase after Put(sampleObject) and Inhume(tomb, sampleObject). *)
Definition txInhumed : Tx :=
  (Update (Update ∅ (λ tx, put tx sampleObject None)).1
          (λ tx, inhume tx sampleTombAddress [AddressOf sampleObject])).1.

(** *** What the statements about the metabase speak of *)

(** An index update that writes the entry of its item and nothing else. *)
Definition writesItemOnly (f : Tx → namedBucketItem → Result Tx) : Prop :=
  ∀ tx item tx' n k,
    f tx item = Ok tx' →
    name item ≠ n ∨ key item ≠ k →
    getFromBucket tx' n k = getFromBucket tx n k.

(** The index items of an object live in parent and attribute buckets. *)
Definition isIndexBucket (n : BucketName) : bool :=
  match n with
  | parentBucketName _ | attributeBucketName _ _ => true
  | _ => false
  end.

(** The first loop of deleteGroup, replayed: for every address of the batch
    in turn, the transaction at the moment db.get is called for it (its
    graveyard record removed) and what db.get returns. *)
Fixpoint deleteTrace (tx : Tx) (addrs : list Address) : list (Tx * Result Object) :=
  match addrs with
  | [] => []
  | a :: rest =>
    let tx0 := bucketDelete tx graveyardBucketName (addressKey a) in
    (tx0, get tx0 a false true)
      :: match delete tx a ∅ with
         | Ok (tx', _) => deleteTrace tx' rest
         | Err _ => []
         end
  end.

(** The inline parent of the child found at a step, if a child was found and
    carries one. *)
Definition countedParent (step : Tx * Result Object) : option Object :=
  match step.2 with
  | Ok child => Parent child
  | Err _ => None
  end.

(** The steps at which a child of the parent at [p] was deleted. *)
Definition sightings (p : Address) (trace : list (Tx * Result Object))
    : list (Tx * Result Object) :=
  filter (λ step, AddressOf <$> countedParent step = Some p) trace.

(** The counter entry the specification describes for the parent at [p]:
    none when no deleted child carries that parent; otherwise [all] is the
    length of the parent's child list at the first sighting, [cur] the number
    of sightings, and the object the inline parent seen first. *)
Definition expectedReference (p : Address) (trace : list (Tx * Result Object))
    : option referenceNumber :=
  match sightings p trace with
  | [] => None
  | first :: _ =>
    parent ← countedParent first;
    Some (mkRef (parentLength first.1 p) (length (sightings p trace)) p parent)
  end.

(** The same, continuing from a counter that may already hold an entry. *)
Definition continuedReference (entry : option referenceNumber) (p : Address)
    (trace : list (Tx * Result Object)) : option referenceNumber :=
  match entry with
  | Some nRef =>
    Some (mkRef (all nRef) (cur nRef + length (sightings p trace)) (addr nRef) (obj nRef))
  | None => expectedReference p trace
  end.

(** The entries of a counter with cur == all. *)
Definition fullyCounted (refs : list referenceNumber) : list referenceNumber :=
  filter (λ refNum, cur refNum = all refNum) refs.

(** deleteObject(tx, parent, true) for each of the parents in turn. *)
Fixpoint removeParents (tx : Tx) (parents : list Object) : Result Tx :=
  match parents with
  | [] => Ok tx
  | parent :: rest =>
    match deleteObject tx parent true with
    | Err err => Err err
    | Ok tx => removeParents tx rest
    end
  end.

(** The header buckets are well formed: a header is stored under its own
    identifier in the bucket of its own type and container, and an address
    has a header in one bucket at most.  Put keeps this for objects with
    distinct addresses. *)
Definition headersWF (tx : Tx) : Prop :=
  (∀ t c n k v,
     typedBucketName t c = Some n →
     getFromBucket tx n k = Some v →
     ∃ hdr, v = VObject hdr ∧ Type_ hdr = t ∧ ObjContainerID hdr = c
            ∧ k = objectKey (ID hdr))
  ∧ (∀ t1 t2 c n1 n2 k,
       typedBucketName t1 c = Some n1 →
       typedBucketName t2 c = Some n2 →
       is_Some (getFromBucket tx n1 k) →
       is_Some (getFromBucket tx n2 k) →
       t1 = t2).

(** The metabase after Put of two children of the sample parent. *)
Definition sampleChild2 : Object :=
  mkObject 12 1 TypeRegular (Some 100%N) (Some sampleParent) (Some 7%N) [11%N; 12%N]
           [] [3%N].

Definition txChildren : Tx :=
  (Update txChild (λ tx, put tx sampleChild2 None)).1.

(** The metabase after Put(sampleChild) and an Inhume of the parent's
    address. *)
Definition txParentInhumed : Tx :=
  (Update txChild (λ tx, inhume tx sampleTombAddress [AddressOf sampleParent])).1.

(** A step that creates no entry anywhere and, outside the parent and
    attribute buckets, leaves every entry as it was or removes it. *)
Definition onlyRemoves (tx tx' : Tx) : Prop :=
  ∀ n k,
    (getFromBucket tx n k = None → getFromBucket tx' n k = None)
    ∧ (isIndexBucket n = false →
       ∀ v, getFromBucket tx' n k = Some v → getFromBucket tx n k = Some v).

(** Split objects without attributes: a parent that is not stored itself and
    its parts, and the metabase after Put of the two parts 11 and 12. *)
Definition plainParent : Object :=
  mkObject 100 1 TypeRegular None None None [] [] [].

Definition plainChild (id : ObjectID) : Object :=
  mkObject id 1 TypeRegular (Some 100%N) (Some plainParent) (Some 7%N) [] [] [].

Definition txSplit : Tx :=
  (Update (Update ∅ (λ tx, put tx (plainChild 11) None)).1
          (λ tx, put tx (plainChild 12) None)).1.

(** A stored object without attributes, and the metabase after Put of it. *)
Definition plainObject : Object :=
  mkObject 20 1 TypeRegular None None None [] [] [].

Definition txStored : Tx := (Update ∅ (λ tx, put tx plainObject None)).1.

(** An object of a type the metabase does not know. *)
Definition strangeObject : Object :=
  mkObject 30 1 (TypeOther 9) None None None [] [] [].

(** The metabase after Put(plainObject) and an Inhume of an address that
    has no object. *)
Definition strayAddress : Address := mkAddress 1 77.

Definition txStrayGrave : Tx :=
  (Update txStored (λ tx, inhume tx sampleTombAddress [strayAddress])).1.

(** The graveyard records of the addresses of a batch removed, one by one. *)
Definition dropGraveyardRecords (tx : Tx) (addrs : list Address) : Tx :=
  foldl (λ tx a, bucketDelete tx graveyardBucketName (addressKey a)) tx addrs.

End Meta.

(** ** The shard: control.go *)

Module Shard.

(** The metabase as the shard uses it in refillMetabase.  Every call returns
    the metabase after the call and the error, if any. *)
Class MetaBase (M : Type) := {
  Reset : M → M * option Error;
  Inhume : Address → list Address → M → M * option Error;
  Put : Object → option BlobovniczaID → M → M * option Error
}.

(** The metabase of [Meta]: every call is one Update transaction. *)
Global Instance boltMetaBase : MetaBase Meta.Tx := {
  Reset tx := Meta.Update tx Meta.reset;
  Inhume tomb target tx := Meta.Update tx (λ tx, Meta.inhume tx tomb target);
  Put obj blzID tx := Meta.Update tx (λ tx, Meta.put tx obj blzID)
}.

(** A metabase that only records the calls made on it; [fails] tells which
    calls report an error. *)
Inductive Call :=
| CallReset
| CallInhume (tomb : Address) (target : list Address)
| CallPut (obj : Object) (blzID : option BlobovniczaID).

Definition recordingMetaBase (fails : Call → option Error) : MetaBase (list Call) := {|
  Reset calls := (calls ++ [CallReset], fails CallReset);
  Inhume tomb target calls :=
    (calls ++ [CallInhume tomb target], fails (CallInhume tomb target));
  Put obj blzID calls := (calls ++ [CallPut obj blzID], fails (CallPut obj blzID))
|}.

(** The metabase of [Meta] with a record of the calls made on it. *)
Definition tracedMetaBase : MetaBase (Meta.Tx * list Call) := {|
  Reset st :=
    let '(tx, err) := Meta.Update st.1 Meta.reset in
    ((tx, st.2 ++ [CallReset]), err);
  Inhume tomb target st :=
    let '(tx, err) := Meta.Update st.1 (λ tx, Meta.inhume tx tomb target) in
    ((tx, st.2 ++ [CallInhume tomb target]), err);
  Put obj blzID st :=
    let '(tx, err) := Meta.Update st.1 (λ tx, Meta.put tx obj blzID) in
    ((tx, st.2 ++ [CallPut obj blzID]), err)
|}.

(** The blob store as refill sees it: the stored objects with their
    blobovnicza references, in the order the iteration meets them. *)
Abbreviation BlobStor := (list (Object * option BlobovniczaID)).

Inductive Component := blobStor | metaBase | writeCache.

(** What Open and Close do to the components and the GC, in order. *)
Inductive Event :=
| EvOpen (c : Component)
| EvClose (c : Component)
| EvGCStop.

Record Shard := mkShard {
  hasWriteCache : bool;
  openErr : Component → option Error;   (* the error of component.Open() *)
  closeErr : Component → option Error   (* the error of component.Close() *)
}.

(** [for _, component := range components { if err := component.Open() ... }] *)
Fixpoint openComponents (s : Shard) (components : list Component) (log : list Event)
    : list Event * option Error :=
  match components with
  | [] => (log, None)
  | component :: rest =>
    match openErr s component with
    | Some err => (log ++ [EvOpen component], Some (ErrWrap "could not open" err))
    | None => openComponents s rest (log ++ [EvOpen component])
    end
  end.

(** Open opens all Shard's components. *)
Definition Open (s : Shard) (log : list Event) : list Event * option Error :=
  let components := [blobStor; metaBase] in
  let components := if hasWriteCache s then components ++ [writeCache] else components in
  openComponents s components log.

Fixpoint closeComponents (s : Shard) (components : list Component) (log : list Event)
    : list Event * option Error :=
  match components with
  | [] => (log, None)
  | component :: rest =>
    match closeErr s component with
    | Some err => (log ++ [EvClose component], Some (ErrWrap "could not close" err))
    | None => closeComponents s rest (log ++ [EvClose component])
    end
  end.

(** Close releases all Shard's components. *)
Definition Close (s : Shard) (log : list Event) : list Event * option Error :=
  let components := [] in
  let components := if hasWriteCache s then components ++ [writeCache] else components in
  let components := components ++ [blobStor; metaBase] in
  match closeComponents s components log with
  | (log, Some err) => (log, Some err)
  | (log, None) => (log ++ [EvGCStop], None)
  end.

Section refill.

Context {M : Type} {MB : MetaBase M}.

(** tombstone.Unmarshal(obj.Payload()) followed by tombstone.Members(), of the
    SDK. *)
Variable tombstoneMembers : list N → Result (list ObjectID).

(** Modelled from the spec: blobstor.IterateObjects, which is not in the
    checked-in sources.  "Iterate(fn(object, blob_ref) -> Result) -> Result:
    scans every stored object in unspecified order", and the table of error
    kinds has, for "bucket decode failure during refill", the recovery
    "logged; offending record skipped".  The scan calls the handler on every
    stored object; the list gives the order of the scan, which is any.  A
    record for which the handler fails is logged, under its address and with
    the error of the handler, and skipped: the scan goes on with the next
    record.  The spec names no failure of the scan itself, and the scan has
    none.  The result is the metabase after the scan, the log of the scan
    and the error of the scan. *)
Fixpoint IterateObjects (blobs : BlobStor)
    (f : Object → option BlobovniczaID → M → M * option Error) (m : M)
    : (M * list (Address * Error)) * option Error :=
  match blobs with
  | [] => ((m, []), None)
  | (obj, blzID) :: rest =>
    let '(m, res) := f obj blzID m in
    let '((m, log), err) := IterateObjects rest f m in
    match res with
    | Some failure => ((m, (AddressOf obj, failure) :: log), err)
    | None => ((m, log), err)
    end
  end.

(** The handler refillMetabase passes to IterateObjects. *)
Definition refillObject (obj : Object) (blzID : option BlobovniczaID) (m : M)
    : M * option Error :=
  let inhumed :=
    if decide (Type_ obj = TypeTombstone) then
      match tombstoneMembers (Payload obj) with
      | Err err => (m, Some (ErrWrap "could not unmarshal tombstone content" err))
      | Ok memberIDs =>
        let tombAddr := AddressOf obj in
        let cid := addrCID tombAddr in
        let tombMembers := (λ id, mkAddress cid id) <$> memberIDs in
        match Inhume tombAddr tombMembers m with
        | (m, Some err) => (m, Some (ErrWrap "could not inhume objects" err))
        | (m, None) => (m, None)
        end
      end
    else (m, None) in
  match inhumed with
  | (m, Some err) => (m, Some err)
  | (m, None) =>
    match Put obj blzID m with
    | (m, Some err) => if IsErrRemoved err then (m, None) else (m, Some err)
    | (m, None) => (m, None)
    end
  end.

(** refillMetabase *)
Definition refillMetabase (blobs : BlobStor) (m : M) : M * option Error :=
  match Reset m with
  | (m, Some err) => (m, Some (ErrWrap "could not reset metabase" err))
  | (m, None) => let '((m, _), err) := IterateObjects blobs refillObject m in (m, err)
  end.

(** What a refill writes to the log: the records the scan skipped, each with
    the error the handler returned for it. *)
Definition refillLog (blobs : BlobStor) (m : M) : list (Address * Error) :=
  match Reset m with
  | (_, Some _) => []
  | (m, None) => (IterateObjects blobs refillObject m).1.2
  end.

End refill.

(** *** What the statements about Open, Close and refill speak of *)

(** The components in the order Open opens them, and in the order Close
    closes them. *)
Definition openOrder (s : Shard) : list Component :=
  blobStor :: metaBase :: (if hasWriteCache s then [writeCache] else []).

Definition closeOrder (s : Shard) : list Component :=
  (if hasWriteCache s then [writeCache] else []) ++ [blobStor; metaBase].

(** Close as the specification words it: "stop GC; close in reverse of
    Open". *)
Definition specifiedCloseEvents (s : Shard) : list Event :=
  EvGCStop :: (EvClose <$> rev (openOrder s)).

(** The events a run added to the log. *)
Definition eventsSince (log : list Event) (run : list Event * option Error) : list Event :=
  drop (length log) run.1.

(** The member addresses refill forms for a tombstone. *)
Definition tombstoneTargets (obj : Object) (memberIDs : list ObjectID) : list Address :=
  (λ id, mkAddress (addrCID (AddressOf obj)) id) <$> memberIDs.

(** The refill steps as the specification words them: for every object, "if
    type is Tombstone, unmarshal payload, form members' addresses using the
    tombstone's container, call Metabase.Inhume (ignoring AlreadyRemoved)",
    then in all cases "call Metabase.Put (ignoring AlreadyRemoved)".  The
    calls the refill makes when no call fails otherwise. *)
Definition specifiedCallsOf (tombstoneMembers : list N → Result (list ObjectID))
    (blob : Object * option BlobovniczaID) : list Call :=
  (if decide (Type_ blob.1 = TypeTombstone) then
     match tombstoneMembers (Payload blob.1) with
     | Ok memberIDs => [CallInhume (AddressOf blob.1) (tombstoneTargets blob.1 memberIDs)]
     | Err _ => []
     end
   else [])
  ++ [CallPut blob.1 blob.2].

Definition specifiedRefillCalls (tombstoneMembers : list N → Result (list ObjectID))
    (blobs : BlobStor) : list Call :=
  CallReset :: concat (specifiedCallsOf tombstoneMembers <$> blobs).

(** The step the handler takes for one object, written as the list of calls
    and the outcome: the Inhume of a tombstone, then the Put.  A payload
    that does not unmarshal and any error of Inhume end the step; of the
    errors of Put only AlreadyRemoved is passed over. *)
Definition refillStep (tombstoneMembers : list N → Result (list ObjectID))
    (fails : Call → option Error) (blob : Object * option BlobovniczaID)
    : list Call * option Error :=
  let putCall := CallPut blob.1 blob.2 in
  let putStep :=
    match fails putCall with
    | Some err => if IsErrRemoved err then ([putCall], None) else ([putCall], Some err)
    | None => ([putCall], None)
    end in
  if decide (Type_ blob.1 = TypeTombstone) then
    match tombstoneMembers (Payload blob.1) with
    | Err err => ([], Some (ErrWrap "could not unmarshal tombstone content" err))
    | Ok memberIDs =>
      let inhumeCall := CallInhume (AddressOf blob.1) (tombstoneTargets blob.1 memberIDs) in
      match fails inhumeCall with
      | Some err => ([inhumeCall], Some (ErrWrap "could not inhume objects" err))
      | None => (inhumeCall :: putStep.1, putStep.2)
      end
    end
  else putStep.

(** For the blob store: the calls of the steps of all objects, in order, and
    the failures of the steps, each under the address of its object. *)
Fixpoint refillSteps (tombstoneMembers : list N → Result (list ObjectID))
    (fails : Call → option Error) (blobs : BlobStor)
    : list Call * list (Address * Error) :=
  match blobs with
  | [] => ([], [])
  | blob :: rest =>
    let '(calls, res) := refillStep tombstoneMembers fails blob in
    let '(calls', log) := refillSteps tombstoneMembers fails rest in
    (calls ++ calls',
     match res with
     | Some failure => (AddressOf blob.1, failure) :: log
     | None => log
     end)
  end.

(** *** Sample data *)

(** A decoder for tombstone payloads: a payload is the byte 1 followed by
    the member identifiers; anything else does not unmarshal. *)
Definition sampleMembers (payload : list N) : Result (list ObjectID) :=
  match payload with
  | 1%N :: ids => Ok ids
  | _ => Err ErrMalformed
  end.

Definition sampleShard : Shard := mkShard true (λ _, None) (λ _, None).

Definition regular (cnr : ContainerID) (id : ObjectID) : Object :=
  mkObject id cnr TypeRegular None None None [] [] [7%N].

Definition tombstoneOf (cnr : ContainerID) (id : ObjectID) (members : list ObjectID) : Object :=
  mkObject id cnr TypeTombstone None None None [] [] (1%N :: members).

(** A tombstone whose payload does not unmarshal. *)
Definition brokenTombstone : Object :=
  mkObject 50 1 TypeTombstone None None None [] [] [9%N].

(** *** What the statements about the refill on the bolt metabase speak of *)

(** The index buckets as Reset and the Puts and Inhumes of a refill leave
    them: the parent index holds lists, the attribute buckets hold nested
    buckets, and nothing is locked. *)
Definition indexesWF (tx : Meta.Tx) : Prop :=
  (∀ c k v, Meta.getFromBucket tx (Meta.parentBucketName c) k = Some v →
            ∃ lst, v = Meta.VList lst)
  ∧ (∀ c a k v, Meta.getFromBucket tx (Meta.attributeBucketName c a) k = Some v →
                ∃ keys, v = Meta.VSubBucket keys)
  ∧ (∀ c k, Meta.getFromBucket tx (Meta.bucketNameLocked c) k = None).

(** The objects a refill is stated for: the payload of every tombstone
    unmarshals, and every object is of a type the metabase has a bucket
    for. *)
Definition decodable (tombstoneMembers : list N → Result (list ObjectID))
    (blobs : BlobStor) : Prop :=
  Forall (λ blob, Type_ blob.1 = TypeTombstone →
                  ∃ memberIDs, tombstoneMembers (Payload blob.1) = Ok memberIDs) blobs.

Definition knownTypes (blobs : BlobStor) : Prop :=
  Forall (λ blob, is_Some (Meta.typedBucketName (Type_ blob.1) (ObjContainerID blob.1)))
         blobs.

(** The metabase side of putting the objects into the shard one after the
    other (a shard Put stores the blob and calls Metabase.Put). *)
Fixpoint putAll (tx : Meta.Tx) (blobs : BlobStor) : Result Meta.Tx :=
  match blobs with
  | [] => Ok tx
  | (obj, blzID) :: rest => tx ←r Meta.put tx obj blzID; putAll tx rest
  end.

(** *** Sample blob stores *)

(** An object and a tombstone for it, put but never inhumed. *)
Definition blobsNotInhumed : BlobStor :=
  [(regular 1 10, Some 1%N); (tombstoneOf 1 50 [10%N], None)].

(** The metabase after the two Puts. *)
Definition txNotInhumed : Meta.Tx :=
  match putAll ∅ blobsNotInhumed with
  | Ok tx => tx
  | Err _ => ∅
  end.

(** The metabase after Put of an object and an Inhume of it under the
    address of a tombstone that is not stored. *)
Definition txInhumedAlone : Meta.Tx :=
  match Meta.put ∅ (regular 1 10) (Some 1%N) with
  | Ok tx =>
    match Meta.inhume tx (mkAddress 1 50) [mkAddress 1 10] with
    | Ok tx => tx
    | Err _ => ∅
    end
  | Err _ => ∅
  end.

(** *** Init *)

(** What Init does, in order: the initialisation of a component, the refill
    of the metabase in place of its initialisation, the start of the GC. *)
Inductive InitEvent :=
| EvInit (c : Component)
| EvRefill
| EvGCInit.

(** The outcome of the Init methods of the components, which are not in the
    checked-in sources: the error of blobStor.Init and writeCache.Init, and
    what metaBase.Init makes of the metabase. *)
Record InitEnv (M : Type) := mkInitEnv {
  needRefillMetabase : bool;
  blobStorInit : option Error;
  metaBaseInit : M → M * option Error;
  writeCacheInit : option Error
}.
Arguments needRefillMetabase {M} _.
Arguments blobStorInit {M} _.
Arguments metaBaseInit {M} _.
Arguments writeCacheInit {M} _.

Section init.

Context {M : Type} {MB : MetaBase M}.
Variable tombstoneMembers : list N → Result (list ObjectID).

(** [for _, component := range components { if err := component(); ... }]:
    a component is a function on the metabase and the log of events. *)
Fixpoint initComponents
    (components : list (M * list InitEvent → (M * list InitEvent) * option Error))
    (st : M * list InitEvent) : (M * list InitEvent) * option Error :=
  match components with
  | [] => (st, None)
  | component :: rest =>
    match component st with
    | (st, Some err) => (st, Some (ErrWrap "could not initialize" err))
    | (st, None) => initComponents rest st
    end
  end.

(** Init initializes all Shard's components. *)
Definition Init (s : Shard) (env : InitEnv M) (blobs : BlobStor)
    (st : M * list InitEvent) : (M * list InitEvent) * option Error :=
  let fMetabase :=
    if needRefillMetabase env then
      λ st : M * list InitEvent,
        let '(m, err) := refillMetabase tombstoneMembers blobs st.1 in
        ((m, st.2 ++ [EvRefill]), err)
    else
      λ st : M * list InitEvent,
        let '(m, err) := metaBaseInit env st.1 in
        ((m, st.2 ++ [EvInit metaBase]), err) in
  let components :=
    [ (λ st : M * list InitEvent, ((st.1, st.2 ++ [EvInit blobStor]), blobStorInit env));
      fMetabase ] in
  let components :=
    if hasWriteCache s then
      components ++
        [λ st : M * list InitEvent,
           ((st.1, st.2 ++ [EvInit writeCache]), writeCacheInit env)]
    else components in
  match initComponents components st with
  | (st, Some err) => (st, Some err)
  | (st, None) => ((st.1, st.2 ++ [EvGCInit]), None)
  end.

End init.

(** The step Init takes for the metabase: the refill when the shard is
    configured for it, metaBase.Init otherwise. *)
Definition metabaseStep {M : Type} {MB : MetaBase M}
    (tombstoneMembers : list N → Result (list ObjectID))
    (env : InitEnv M) (blobs : BlobStor) (m : M) : M * option Error :=
  if needRefillMetabase env then refillMetabase tombstoneMembers blobs m
  else metaBaseInit env m.

(** The events of an Init in which no component fails, before the start of
    the GC. *)
Definition initOrder {M : Type} (s : Shard) (env : InitEnv M) : list InitEvent :=
  [EvInit blobStor; if needRefillMetabase env then EvRefill else EvInit metaBase]
  ++ (if hasWriteCache s then [EvInit writeCache] else []).

(** A metabase whose Put reports AlreadyRemoved for every object. *)
Definition putRemoved (c : Call) : option Error :=
  match c with
  | CallPut _ _ => Some ObjectAlreadyRemoved
  | _ => None
  end.

(** A shard whose blob store fails to close. *)
Definition shardBlobStorStuck : Shard :=
  mkShard true (λ _, None) (λ c, match c with blobStor => Some ErrIO | _ => None end).

(** A tombstone that the scan meets before the object it covers. *)
Definition blobsTombstoneFirst : BlobStor :=
  [(tombstoneOf 1 50 [10%N], None); (regular 1 10, Some 3%N)].

(** A shard whose metabase fails to open. *)
Definition shardMetaFails : Shard :=
  mkShard true (λ c, match c with metaBase => Some ErrIO | _ => None end) (λ _, None).

End Shard.

(** ** The engine: exists.go *)

Module Engine.

Abbreviation ShardID := N (only parsing).

(** shard.ExistsRes *)
Record ExistsRes := mkExistsRes { ResExists : bool }.

(** A shard as the engine sees it in [exists]: its identifier and what its
    Exists method returns for an address, the result (nil or not) and the
    error (nil or not). *)
Record hashedShard := mkShard {
  ID : ShardID;
  Exists : Address → option ExistsRes * option Error
}.

Record StorageEngine := mkEngine {
  shards : list hashedShard;
  errorCount : gmap N nat
}.

(** Modelled from the spec: reportShardError, "each error increments a
    shard's error counter" (the demotion at errorThreshold is left out). *)
Definition reportShardError (e : StorageEngine) (sh : hashedShard) (err : Error)
    : StorageEngine :=
  mkEngine (shards e) (<[ID sh := S (default 0 (errorCount e !! ID sh))]> (errorCount e)).

Section fanout.

(** sortShardsByWeight: the HRW order of the shards for an address. *)
Variable sortShardsByWeight : Address → list hashedShard → list hashedShard.

(** Modelled from the spec: iterateOverSortedShards calls the handler on the
    shards in HRW order until it asks to stop.  [st] is what the handler's
    closure captures. *)
Fixpoint iterateShards {St : Type} (handler : nat → hashedShard → St → St * bool)
    (i : nat) (shs : list hashedShard) (st : St) : St :=
  match shs with
  | [] => st
  | sh :: rest =>
    let '(st, stop) := handler i sh st in
    if stop then st else iterateShards handler (S i) rest st
  end.

Definition iterateOverSortedShards {St : Type} (e : StorageEngine) (addr : Address)
    (handler : nat → hashedShard → St → St * bool) (st : St) : St :=
  iterateShards handler 0 (sortShardsByWeight addr (shards e)) st.

(** What the handler of [exists] reads and writes: the engine (for
    reportShardError) and the variables alreadyRemoved and exists
    ([existsV]). *)
Record existsVars := mkVars {
  engine : StorageEngine;
  alreadyRemoved : bool;
  existsV : bool
}.

(** The handler of [exists]. *)
Definition existsHandler (addr : Address) (_ : nat) (sh : hashedShard) (st : existsVars)
    : existsVars * bool :=
  let '(res, err) := Exists sh addr in
  let reported :=
    match err with
    | Some err =>
      if IsErrRemoved err then inl (mkVars (engine st) true (existsV st))
      else inr (mkVars (reportShardError (engine st) sh err)
                       (alreadyRemoved st) (existsV st))
    | None => inr st
    end in
  match reported with
  | inl st => (st, true)
  | inr st =>
    let st := match res with
              | Some res =>
                if negb (existsV st)
                then mkVars (engine st) (alreadyRemoved st) (ResExists res)
                else st
              | None => st
              end in
    (st, false)
  end.

(** exists ([exists_], as the name is reserved) *)
Definition exists_ (e : StorageEngine) (addr : Address)
    : StorageEngine * (bool * option Error) :=
  let st := iterateOverSortedShards e addr (existsHandler addr) (mkVars e false false) in
  if alreadyRemoved st then (engine st, (false, Some ObjectAlreadyRemoved))
  else (engine st, (existsV st, None)).

End fanout.

(** *** What the statements about [exists_] speak of *)

(** The shard reports AlreadyRemoved for the address. *)
Definition reportsRemoved (addr : Address) (sh : hashedShard) : bool :=
  match (Exists sh addr).2 with
  | Some err => IsErrRemoved err
  | None => false
  end.

(** The shard reports an error other than AlreadyRemoved. *)
Definition reportsFailure (addr : Address) (sh : hashedShard) : bool :=
  match (Exists sh addr).2 with
  | Some err => negb (IsErrRemoved err)
  | None => false
  end.

(** The exists boolean of the shard's result, false when there is none. *)
Definition shardExists (addr : Address) (sh : hashedShard) : bool :=
  match (Exists sh addr).1 with
  | Some res => ResExists res
  | None => false
  end.

(** How many of the shards [shs] with identifier [id] report a failure. *)
Definition failuresOf (addr : Address) (id : ShardID) (shs : list hashedShard) : nat :=
  length (filter (λ sh, ID sh = id ∧ reportsFailure addr sh = true) shs).

(** The error counter of a shard, zero when it has none yet. *)
Definition errorsOf (e : StorageEngine) (id : ShardID) : nat :=
  default 0 (errorCount e !! id).

(** Sample shards: one that has the object, one that fails with an I/O
    error, one whose graveyard holds the address. *)
Definition shardHolding : hashedShard :=
  mkShard 1 (λ _, (Some (mkExistsRes true), None)).

Definition shardFailing : hashedShard :=
  mkShard 2 (λ _, (None, Some ErrIO)).

Definition shardRemoved : hashedShard :=
  mkShard 3 (λ _, (Some (mkExistsRes false), Some ObjectAlreadyRemoved)).

Definition sampleAddress : Address := mkAddress 1 10.

(** The engine after the handler has met a shard that does not report
    AlreadyRemoved: its error, if any, is reported. *)
Definition reported (addr : Address) (e : StorageEngine) (sh : hashedShard)
    : StorageEngine :=
  match (Exists sh addr).2 with
  | Some err => if IsErrRemoved err then e else reportShardError e sh err
  | None => e
  end.

(** The shards the walk asks without being stopped: those before the first
    one that reports AlreadyRemoved. *)
Fixpoint askedBeforeRemoved (addr : Address) (shs : list hashedShard)
    : list hashedShard :=
  match shs with
  | [] => []
  | sh :: rest =>
    if reportsRemoved addr sh then [] else sh :: askedBeforeRemoved addr rest
  end.

End Engine.

(** * Properties *)

(** An equation between closed terms is settled by evaluating both sides. *)
Ltac by_vm :=
  lazymatch goal with
  | |- ?a = ?b => exact (@eq_refl _ b <: a = b)
  end.

(** ** The metabase: the bolt store *)

Module StoreFacts.
Import Meta.

Lemma getFromBucket_empty name key : getFromBucket ∅ name key = None.
Proof. unfold getFromBucket, TxBucket. by rewrite lookup_empty. Qed.

Lemma getFromBucket_bucketPut tx n k v n' k' :
  getFromBucket (bucketPut tx n k v) n' k' =
    if decide (n = n' ∧ k = k') then Some v else getFromBucket tx n' k'.
Proof.
  unfold getFromBucket, bucketPut, TxBucket.
  destruct (decide (n = n')) as [<-|Hn].
  - rewrite lookup_insert_eq. simpl.
    destruct (decide (k = k')) as [<-|Hk].
    + rewrite lookup_insert_eq. by rewrite decide_True.
    + rewrite lookup_insert_ne by done. rewrite decide_False by tauto.
      destruct (tx !! n); simpl; [done|]. by rewrite lookup_empty.
  - rewrite lookup_insert_ne by done. by rewrite decide_False by tauto.
Qed.

Lemma getFromBucket_bucketDelete tx n k n' k' :
  getFromBucket (bucketDelete tx n k) n' k' =
    if decide (n = n' ∧ k = k') then None else getFromBucket tx n' k'.
Proof.
  unfold getFromBucket, bucketDelete, TxBucket.
  destruct (tx !! n) as [bkt|] eqn:Hbkt.
  - destruct (decide (n = n')) as [<-|Hn].
    + rewrite lookup_insert_eq, Hbkt. simpl.
      destruct (decide (k = k')) as [<-|Hk].
      * rewrite lookup_delete_eq. by rewrite decide_True.
      * rewrite lookup_delete_ne by done. by rewrite decide_False by tauto.
    + rewrite lookup_insert_ne by done. by rewrite decide_False by tauto.
  - case_decide as Hd; [|done]. destruct Hd as [<- _]. by rewrite Hbkt.
Qed.

Lemma getFromBucket_bucketPut_eq tx n k v :
  getFromBucket (bucketPut tx n k v) n k = Some v.
Proof. rewrite getFromBucket_bucketPut. by rewrite decide_True. Qed.

Lemma getFromBucket_bucketPut_ne tx n k v n' k' :
  n ≠ n' ∨ k ≠ k' →
  getFromBucket (bucketPut tx n k v) n' k' = getFromBucket tx n' k'.
Proof. intros. rewrite getFromBucket_bucketPut. rewrite decide_False; tauto. Qed.

Lemma getFromBucket_bucketDelete_eq tx n k :
  getFromBucket (bucketDelete tx n k) n k = None.
Proof. rewrite getFromBucket_bucketDelete. by rewrite decide_True. Qed.

Lemma getFromBucket_bucketDelete_ne tx n k n' k' :
  n ≠ n' ∨ k ≠ k' →
  getFromBucket (bucketDelete tx n k) n' k' = getFromBucket tx n' k'.
Proof. intros. rewrite getFromBucket_bucketDelete. rewrite decide_False; tauto. Qed.

(** What the code reads with [bkt.Get(key)] after [tx.Bucket(name)]. *)
Lemma TxBucket_lookup tx n bkt k :
  TxBucket tx n = Some bkt → bkt !! k = getFromBucket tx n k.
Proof. unfold getFromBucket. by intros ->. Qed.

Lemma TxBucket_None tx n k : TxBucket tx n = None → getFromBucket tx n k = None.
Proof. unfold getFromBucket. by intros ->. Qed.

(** Two stores that agree on a set of entries give the same answers to the
    readers that only look there. *)
Lemma inGraveyard_bucketPut tx k v addr :
  inGraveyard (bucketPut tx graveyardBucketName (addressKey k) v) addr
    = bool_decide (k = addr) || inGraveyard tx addr.
Proof.
  unfold inGraveyard. rewrite getFromBucket_bucketPut.
  destruct (decide (k = addr)) as [->|Hne].
  - rewrite decide_True by done. rewrite bool_decide_eq_true_2 by done.
    by rewrite bool_decide_eq_true_2 by eauto.
  - rewrite decide_False by (intros [_ [=]]; done).
    by rewrite (bool_decide_eq_false_2 (k = addr)).
Qed.

End StoreFacts.

(** ** The engine's existence check *)

Module EngineFacts.
Import Engine.

Section fanout.

Variable sortShardsByWeight : Address → list hashedShard → list hashedShard.
Variable addr : Address.

Lemma existsHandler_removed i sh st :
  reportsRemoved addr sh = true →
  existsHandler addr i sh st = (mkVars (engine st) true (existsV st), true).
Proof.
  unfold reportsRemoved, existsHandler.
  destruct (Exists sh addr) as [res [err|]]; simpl; [|done].
  by intros ->.
Qed.

Lemma existsHandler_kept i sh st :
  reportsRemoved addr sh = false →
  existsHandler addr i sh st =
    (mkVars (reported addr (engine st) sh) (alreadyRemoved st)
            (existsV st || shardExists addr sh), false).
Proof.
  unfold reportsRemoved, existsHandler, reported, shardExists.
  destruct st as [e ar ex].
  destruct (Exists sh addr) as [[[b]|] [err|]]; simpl;
    try (intros ->; simpl); try intros _; destruct ex; simpl;
    rewrite ?orb_false_r; reflexivity.
Qed.

Lemma reported_shards e sh : shards (reported addr e sh) = shards e.
Proof.
  unfold reported.
  destruct (Exists sh addr) as [res [err|]]; simpl; [|done].
  by destruct (IsErrRemoved err).
Qed.

Lemma reported_errorsOf e sh id :
  errorsOf (reported addr e sh) id =
    errorsOf e id + failuresOf addr id [sh].
Proof.
  unfold reported, failuresOf, reportsFailure, errorsOf.
  rewrite filter_cons, filter_nil.
  destruct (Exists sh addr) as [res [err|]]; simpl.
  - destruct (IsErrRemoved err); simpl.
    + case_decide as Hd; [by destruct Hd | simpl; lia].
    + case_decide as Hd.
      * destruct Hd as [<- _]. rewrite lookup_insert_eq. simpl. lia.
      * rewrite lookup_insert_ne; [simpl; lia|]. intros Heq. by apply Hd.
  - case_decide as Hd; [by destruct Hd | simpl; lia].
Qed.

Lemma failuresOf_cons id sh shs :
  failuresOf addr id (sh :: shs) = failuresOf addr id [sh] + failuresOf addr id shs.
Proof.
  unfold failuresOf. rewrite !filter_cons, filter_nil.
  case_decide; simpl; lia.
Qed.

(** The walk over shards none of which reports AlreadyRemoved visits them
    all: the flag is untouched, the booleans are or-ed, every failure is
    reported. *)
Lemma iterateShards_kept shs : ∀ i st,
  Forall (λ sh, reportsRemoved addr sh = false) shs →
  let st' := iterateShards (existsHandler addr) i shs st in
  alreadyRemoved st' = alreadyRemoved st
  ∧ existsV st' = existsV st || existsb (shardExists addr) shs
  ∧ shards (engine st') = shards (engine st)
  ∧ ∀ id, errorsOf (engine st') id = errorsOf (engine st) id + failuresOf addr id shs.
Proof.
  induction shs as [|sh shs IH]; intros i st Hall; simpl.
  - rewrite orb_false_r. repeat split; try done.
    all: intros id; unfold failuresOf; rewrite filter_nil; simpl; lia.
  - inversion Hall as [|? ? Hsh Hrest]; subst.
    rewrite (existsHandler_kept _ _ _ Hsh).
    destruct (IH (S i) (mkVars (reported addr (engine st) sh) (alreadyRemoved st)
                               (existsV st || shardExists addr sh)) Hrest)
      as (Har & Hex & Hshs & Hcnt).
    simpl in *. repeat split.
    + exact Har.
    + rewrite Hex. by rewrite orb_assoc.
    + by rewrite Hshs, reported_shards.
    + intros id. rewrite Hcnt, reported_errorsOf, (failuresOf_cons id sh shs). lia.
Qed.

(** The walk ends at the first shard that reports AlreadyRemoved: what comes
    after it in the order is not asked. *)
Lemma iterateShards_stops l1 sh l2 : ∀ i st,
  Forall (λ sh, reportsRemoved addr sh = false) l1 →
  reportsRemoved addr sh = true →
  iterateShards (existsHandler addr) i (l1 ++ sh :: l2) st =
    iterateShards (existsHandler addr) i (l1 ++ [sh]) st
  ∧ alreadyRemoved (iterateShards (existsHandler addr) i (l1 ++ sh :: l2) st) = true.
Proof.
  induction l1 as [|sh1 l1 IH]; intros i st Hall Hsh; simpl.
  - by rewrite (existsHandler_removed _ _ _ Hsh).
  - inversion Hall as [|? ? Hsh1 Hrest]; subst.
    rewrite (existsHandler_kept _ _ _ Hsh1). by apply IH.
Qed.

(** A list of shards either has a first one reporting AlreadyRemoved, or
    none. *)
Lemma first_removed (shs : list hashedShard) :
  Forall (λ sh, reportsRemoved addr sh = false) shs
  ∨ ∃ l1 sh l2, shs = l1 ++ sh :: l2
      ∧ Forall (λ sh, reportsRemoved addr sh = false) l1
      ∧ reportsRemoved addr sh = true.
Proof.
  induction shs as [|sh shs IH]; [by left|].
  destruct (reportsRemoved addr sh) eqn:Hsh.
  - right. exists [], sh, shs. by repeat split.
  - destruct IH as [Hall|(l1 & sh' & l2 & -> & Hall & Hsh')].
    + left. by constructor.
    + right. exists (sh :: l1), sh', l2. repeat split; [|done]. by constructor.
Qed.

End fanout.

Lemma existsb_Permutation {A} (f : A → bool) (l l' : list A) :
  l ≡ₚ l' → existsb f l = existsb f l'.
Proof.
  intros Hp. apply eq_true_iff_eq. rewrite !existsb_exists.
  split; intros (x & Hx & Hf); exists x; split; try done;
    apply list_elem_of_In; apply list_elem_of_In in Hx.
  - by rewrite <- Hp.
  - by rewrite Hp.
Qed.

Lemma Forall_kept_Permutation addr (l l' : list hashedShard) :
  l ≡ₚ l' →
  Forall (λ sh, reportsRemoved addr sh = false) l →
  Forall (λ sh, reportsRemoved addr sh = false) l'.
Proof. intros Hp. by rewrite Hp. Qed.

(** The answer of [exists_] when no shard in the order reports
    AlreadyRemoved, and when one does. *)
Lemma exists_kept sort e addr :
  Forall (λ sh, reportsRemoved addr sh = false) (sort addr (shards e)) →
  (exists_ sort e addr).2 = (existsb (shardExists addr) (sort addr (shards e)), None).
Proof.
  intros Hall. unfold exists_, iterateOverSortedShards.
  destruct (iterateShards_kept addr _ 0 (mkVars e false false) Hall)
    as (Har & Hex & _). simpl in *.
  by rewrite Har, Hex.
Qed.

Lemma exists_removed sort e addr l1 sh l2 :
  sort addr (shards e) = l1 ++ sh :: l2 →
  Forall (λ sh, reportsRemoved addr sh = false) l1 →
  reportsRemoved addr sh = true →
  (exists_ sort e addr).2 = (false, Some ObjectAlreadyRemoved)
  ∧ exists_ sort e addr = exists_ (λ _ _, l1 ++ [sh]) e addr.
Proof.
  intros Hsplit Hall Hsh. unfold exists_, iterateOverSortedShards.
  rewrite Hsplit.
  destruct (iterateShards_stops addr l1 sh l2 0 (mkVars e false false) Hall Hsh)
    as [Heq Har].
  rewrite Har. split; [done|]. by rewrite <- Heq, Har.
Qed.

(** C3.  The engine-level existence check returns the AlreadyRemoved failure
    exactly when some shard of the engine reports AlreadyRemoved for the
    address; the walk then ends at the first such shard of the order (the
    outcome is the one of the order cut after that shard); when no shard
    reports it, the answer is the disjunction of the exists booleans of the
    shards; and the answer is the same for every order of the shards. *)
Theorem exists_removed_iff_some_shard
    (sort : Address → list hashedShard → list hashedShard)
    (e : StorageEngine) (addr : Address) :
  sort addr (shards e) ≡ₚ shards e →
  ((exists_ sort e addr).2 = (false, Some ObjectAlreadyRemoved)
     ↔ ∃ sh, sh ∈ shards e ∧ reportsRemoved addr sh = true)
  ∧ (∀ l1 sh l2,
       sort addr (shards e) = l1 ++ sh :: l2 →
       Forall (λ sh, reportsRemoved addr sh = false) l1 →
       reportsRemoved addr sh = true →
       exists_ sort e addr = exists_ (λ _ _, l1 ++ [sh]) e addr)
  ∧ ((∀ sh, sh ∈ shards e → reportsRemoved addr sh = false) →
       (exists_ sort e addr).2 = (existsb (shardExists addr) (shards e), None))
  ∧ (∀ sort' : Address → list hashedShard → list hashedShard,
       sort' addr (shards e) ≡ₚ shards e →
       (exists_ sort' e addr).2 = (exists_ sort e addr).2).
Proof.
  intros Hperm.
  assert (Hiff : ∀ srt : Address → list hashedShard → list hashedShard,
            srt addr (shards e) ≡ₚ shards e →
            (exists_ srt e addr).2 = (false, Some ObjectAlreadyRemoved)
            ↔ ∃ sh, sh ∈ shards e ∧ reportsRemoved addr sh = true).
  { intros srt Hp. split.
    - intros Hans.
      destruct (first_removed addr (srt addr (shards e)))
        as [Hall|(l1 & sh & l2 & Hsplit & _ & Hsh)].
      + rewrite (exists_kept _ _ _ Hall) in Hans. discriminate.
      + exists sh. split; [|done]. rewrite <- Hp, Hsplit. set_solver.
    - intros (sh & Hin & Hsh).
      destruct (first_removed addr (srt addr (shards e)))
        as [Hall|(l1 & sh' & l2 & Hsplit & Hall & Hsh')].
      + rewrite <- Hp in Hin. rewrite Forall_forall in Hall.
        specialize (Hall sh Hin). congruence.
      + by destruct (exists_removed _ _ _ _ _ _ Hsplit Hall Hsh'). }
  assert (Hor : ∀ srt : Address → list hashedShard → list hashedShard,
            srt addr (shards e) ≡ₚ shards e →
            (∀ sh, sh ∈ shards e → reportsRemoved addr sh = false) →
            (exists_ srt e addr).2 = (existsb (shardExists addr) (shards e), None)).
  { intros srt Hp Hnone.
    rewrite exists_kept.
    - by rewrite (existsb_Permutation _ _ _ Hp).
    - apply Forall_forall. intros sh Hin. apply Hnone. by rewrite <- Hp. }
  split; [by apply Hiff|]. split.
  { intros l1 sh l2 Hsplit Hall Hsh.
    by destruct (exists_removed _ _ _ _ _ _ Hsplit Hall Hsh). }
  split; [by apply Hor|].
  intros sort' Hperm'.
  destruct (decide (Forall (λ sh, reportsRemoved addr sh = false) (shards e)))
    as [Hall|Hsome].
  - rewrite Forall_forall in Hall. by rewrite !Hor.
  - apply not_Forall_Exists in Hsome; [|intros sh; apply _].
    apply Exists_exists in Hsome as (sh & Hin & Hsh).
    apply not_false_is_true in Hsh.
    assert (Hex : ∃ sh, sh ∈ shards e ∧ reportsRemoved addr sh = true) by eauto.
    apply (Hiff sort Hperm) in Hex as ->. apply Hiff; eauto.
Qed.

(** The hypothesis of C3 holds and its conclusions are met on an engine of
    three shards walked in reverse order. *)
Lemma exists_removed_iff_some_shard_witness :
  let e := mkEngine [shardHolding; shardFailing; shardRemoved] ∅ in
  rev (shards e) ≡ₚ shards e
  ∧ (exists_ (λ _ shs, rev shs) e sampleAddress).2
    = (false, Some ObjectAlreadyRemoved).
Proof.
  intros e.
  assert (Hp : rev (shards e) ≡ₚ shards e) by (symmetry; apply Permutation_rev).
  split; [exact Hp|].
  apply (proj1 (exists_removed_iff_some_shard (λ _ shs, rev shs) e sampleAddress Hp)).
  exists shardRemoved. split; [|reflexivity].
  unfold e; simpl. repeat constructor.
Defined.

(** C6, as stated, fails: an engine all of whose shards fail answers
    "not found" without any error. *)
Lemma exists_all_shards_fail_without_error :
  let e := mkEngine [shardFailing] ∅ in
  shards e ≠ []
  ∧ Forall (λ sh, reportsFailure sampleAddress sh = true) (shards e)
  ∧ (exists_ (λ _ shs, shs) e sampleAddress).2 = (false, None).
Proof.
  split; [done|]. split; [|reflexivity].
  repeat constructor.
Qed.

(** The counters after the walk, whatever the shards answer: every failure
    of a shard asked before the walk stops is counted, for that shard. *)
Lemma iterateShards_counters addr shs : ∀ i st,
  let st' := iterateShards (existsHandler addr) i shs st in
  shards (engine st') = shards (engine st)
  ∧ ∀ id, errorsOf (engine st') id
          = errorsOf (engine st) id + failuresOf addr id (askedBeforeRemoved addr shs).
Proof.
  induction shs as [|sh shs IH]; intros i st; simpl.
  - split; [done|]. intros id. unfold failuresOf. rewrite filter_nil. simpl. lia.
  - destruct (reportsRemoved addr sh) eqn:Hsh.
    + rewrite (existsHandler_removed addr _ _ _ Hsh). simpl.
      split; [done|]. intros id. unfold failuresOf. rewrite filter_nil. simpl. lia.
    + rewrite (existsHandler_kept addr _ _ _ Hsh).
      destruct (IH (S i) (mkVars (reported addr (engine st) sh) (alreadyRemoved st)
                                 (existsV st || shardExists addr sh)))
        as [Hshs Hcnt].
      simpl in *. split.
      * by rewrite Hshs, reported_shards.
      * intros id.
        rewrite Hcnt, reported_errorsOf,
          (failuresOf_cons addr id sh (askedBeforeRemoved addr shs)). lia.
Qed.

Lemma existsb_none {A} (f : A → bool) (l : list A) :
  Forall (λ x, f x = false) l → existsb f l = false.
Proof. induction 1 as [|x l Hx _ IH]; [done|]. simpl. by rewrite Hx, IH. Qed.

Lemma existsb_some {A} (f : A → bool) (l1 l2 : list A) (x : A) :
  f x = true → existsb f (l1 ++ x :: l2) = true.
Proof. intros Hx. rewrite existsb_app. simpl. rewrite Hx. by rewrite orb_true_r. Qed.

Lemma reportsFailure_not_removed addr sh :
  reportsFailure addr sh = true → reportsRemoved addr sh = false.
Proof.
  unfold reportsFailure, reportsRemoved.
  destruct (Exists sh addr).2 as [err|]; [|done]. by destruct (IsErrRemoved err).
Qed.

(** C6, amended.  Errors of the shards other than AlreadyRemoved are counted
    against the shard and are never fatal.  The error counter of every shard
    grows by the number of such errors it returned among the shards asked,
    those that come in the order before the first shard that reports
    AlreadyRemoved.  The call returns AlreadyRemoved, with false, exactly
    when a shard of the order reports it, and otherwise no error, with the
    disjunction of the exists results the shards returned; so when every
    shard fails with another error the call still returns without error,
    and its answer is false when no shard returned a result. *)
Theorem exists_failures_counted_never_fatal
    (sort : Address → list hashedShard → list hashedShard)
    (e : StorageEngine) (addr : Address) :
  let order := sort addr (shards e) in
  (∀ id, errorsOf (exists_ sort e addr).1 id
         = errorsOf e id + failuresOf addr id (askedBeforeRemoved addr order))
  ∧ (exists_ sort e addr).2
    = (if existsb (reportsRemoved addr) order
       then (false, Some ObjectAlreadyRemoved)
       else (existsb (shardExists addr) order, None))
  ∧ (Forall (λ sh, reportsFailure addr sh = true) order →
     (exists_ sort e addr).2 = (existsb (shardExists addr) order, None))
  ∧ (Forall (λ sh, reportsFailure addr sh = true) order →
     Forall (λ sh, (Exists sh addr).1 = None) order →
     (exists_ sort e addr).2 = (false, None)).
Proof.
  intros order.
  assert (Hvalue : (exists_ sort e addr).2
                   = (if existsb (reportsRemoved addr) order
                      then (false, Some ObjectAlreadyRemoved)
                      else (existsb (shardExists addr) order, None))).
  { destruct (first_removed addr order)
      as [Hall|(l1 & sh & l2 & Hsplit & Hall & Hsh)].
    - rewrite (existsb_none _ _ Hall). by apply exists_kept.
    - rewrite Hsplit, (existsb_some _ l1 l2 sh Hsh).
      by destruct (exists_removed sort e addr l1 sh l2 Hsplit Hall Hsh). }
  assert (Hfail : Forall (λ sh, reportsFailure addr sh = true) order →
                  (exists_ sort e addr).2 = (existsb (shardExists addr) order, None)).
  { intros Hall. rewrite Hvalue, existsb_none; [done|].
    eapply Forall_impl; [exact Hall|]. intros sh. apply reportsFailure_not_removed. }
  split; [|split; [exact Hvalue|split; [exact Hfail|]]].
  - intros id. unfold exists_, iterateOverSortedShards.
    destruct (iterateShards_counters addr (sort addr (shards e)) 0 (mkVars e false false))
      as [_ Hcnt].
    simpl in *. destruct (alreadyRemoved _); apply Hcnt.
  - intros Hall Hnone. rewrite (Hfail Hall). f_equal. apply existsb_none.
    eapply Forall_impl; [exact Hnone|]. intros sh Hres. unfold shardExists.
    by rewrite Hres.
Qed.

End EngineFacts.

(** ** The shard: Open, Close and the refill of the metabase *)

Module ShardFacts.
Import Shard.

Lemma openComponents_ok s cs : ∀ log,
  Forall (λ c, openErr s c = None) cs →
  openComponents s cs log = (log ++ (EvOpen <$> cs), None).
Proof.
  induction cs as [|c cs IH]; intros log Hok; simpl.
  - by rewrite app_nil_r.
  - inversion Hok as [|? ? Hc Hcs]; subst. rewrite Hc, IH by done.
    by rewrite <- app_assoc.
Qed.

(** Closing a list of components closes a prefix of it, in order: all of it
    when no close fails, up to the first failing one otherwise; nothing else
    is logged. *)
Lemma closeComponents_events s cs : ∀ log,
  ∃ closed rest,
    cs = closed ++ rest
    ∧ (closeComponents s cs log).1 = log ++ (EvClose <$> closed)
    ∧ ((closeComponents s cs log).2 = None → rest = []).
Proof.
  induction cs as [|c cs IH]; intros log; simpl.
  - exists [], []. simpl. by rewrite app_nil_r.
  - destruct (closeErr s c) as [err|] eqn:Hc; simpl.
    + exists [c], cs. by repeat split.
    + destruct (IH (log ++ [EvClose c])) as (closed & rest & -> & Hlog & Hrest).
      exists (c :: closed), rest. rewrite Hlog. simpl.
      by rewrite <- app_assoc.
Qed.

Lemma closeComponents_ok s cs : ∀ log,
  Forall (λ c, closeErr s c = None) cs →
  closeComponents s cs log = (log ++ (EvClose <$> cs), None).
Proof.
  induction cs as [|c cs IH]; intros log Hok; simpl.
  - by rewrite app_nil_r.
  - inversion Hok as [|? ? Hc Hcs]; subst. rewrite Hc, IH by done.
    by rewrite <- app_assoc.
Qed.

Lemma Close_components s :
  (let components := [] in
   let components := if hasWriteCache s then components ++ [writeCache] else components in
   components ++ [blobStor; metaBase]) = closeOrder s.
Proof. reflexivity. Qed.

(** C8, as stated, fails: a shard with a write cache closes the write cache,
    the blob store and then the metabase, and stops the GC last; the
    specified sequence stops the GC first and closes the metabase before the
    blob store. *)
Lemma Close_is_not_reverse_of_Open :
  eventsSince [] (Open sampleShard [])
    = [EvOpen blobStor; EvOpen metaBase; EvOpen writeCache]
  ∧ eventsSince [] (Close sampleShard [])
    = [EvClose writeCache; EvClose blobStor; EvClose metaBase; EvGCStop]
  ∧ specifiedCloseEvents sampleShard
    = [EvGCStop; EvClose writeCache; EvClose metaBase; EvClose blobStor]
  ∧ eventsSince [] (Close sampleShard []) ≠ specifiedCloseEvents sampleShard.
Proof. repeat split. discriminate. Qed.

Lemma closeComponents_failure s pre c post err : ∀ log,
  Forall (λ c', closeErr s c' = None) pre →
  closeErr s c = Some err →
  closeComponents s (pre ++ c :: post) log
    = (log ++ (EvClose <$> pre ++ [c]), Some (ErrWrap "could not close" err)).
Proof.
  induction pre as [|c0 pre IH]; intros log Hpre Hc; simpl.
  - by rewrite Hc.
  - inversion Hpre as [|? ? Hc0 Hrest]; subst. rewrite Hc0, IH by done.
    by rewrite <- app_assoc.
Qed.

(** C8, amended.  Open opens the blob store, the metabase and then the write
    cache when there is one.  Close closes the write cache when there is
    one, then the blob store, then the metabase, and stops the GC after
    that, last; when a component fails to close, Close returns the error,
    the components after it are not closed and the GC is not stopped. *)
Theorem Close_order (s : Shard) (log : list Event) :
  ((∀ c, openErr s c = None) →
     Open s log = (log ++ (EvOpen <$> openOrder s), None))
  ∧ ((∀ c, closeErr s c = None) →
     Close s log = (log ++ (EvClose <$> closeOrder s) ++ [EvGCStop], None))
  ∧ (∀ pre c post err,
       closeOrder s = pre ++ c :: post →
       Forall (λ c', closeErr s c' = None) pre →
       closeErr s c = Some err →
       Close s log = (log ++ (EvClose <$> pre ++ [c]),
                      Some (ErrWrap "could not close" err))
       ∧ (EvGCStop ∉ eventsSince log (Close s log))).
Proof.
  split; [|split].
  - intros Hok. unfold Open. rewrite openComponents_ok.
    + unfold openOrder. by destruct (hasWriteCache s).
    + apply Forall_forall. auto.
  - intros Hok. unfold Close. rewrite Close_components, closeComponents_ok.
    + by rewrite <- app_assoc.
    + apply Forall_forall. auto.
  - intros pre c post err Horder Hpre Hc.
    assert (Hrun : Close s log = (log ++ (EvClose <$> pre ++ [c]),
                                 Some (ErrWrap "could not close" err))).
    { unfold Close. rewrite Close_components, Horder.
      by rewrite (closeComponents_failure _ _ _ _ _ _ Hpre Hc). }
    split; [exact Hrun|].
    unfold eventsSince. rewrite Hrun. cbn [fst]. rewrite drop_app_length.
    intros Hin. apply list_elem_of_fmap in Hin as (c' & Hc' & _). discriminate.
Qed.

(** A shard with a write cache whose blob store fails to close: the write
    cache and the blob store have been tried, the metabase is left open and
    the GC runs on. *)
Lemma Close_order_witness :
  closeOrder shardBlobStorStuck = [writeCache] ++ blobStor :: [metaBase]
  ∧ Forall (λ c', closeErr shardBlobStorStuck c' = None) [writeCache]
  ∧ closeErr shardBlobStorStuck blobStor = Some ErrIO
  ∧ Close shardBlobStorStuck []
    = ([EvClose writeCache; EvClose blobStor], Some (ErrWrap "could not close" ErrIO)).
Proof.
  assert (Hpre : Forall (λ c', closeErr shardBlobStorStuck c' = None) [writeCache])
    by (by repeat constructor).
  split; [reflexivity|]. split; [exact Hpre|]. split; [reflexivity|].
  apply (proj2 (proj2 (Close_order shardBlobStorStuck [])) [writeCache] blobStor
           [metaBase] ErrIO eq_refl Hpre eq_refl).
Defined.

Section refill.

Context {M : Type} {MB : MetaBase M}.
Variable tombstoneMembers : list N → Result (list ObjectID).

(** The scan itself reports no error. *)
Lemma IterateObjects_result (f : Object → option BlobovniczaID → M → M * option Error)
    (blobs : BlobStor) : ∀ m, (IterateObjects blobs f m).2 = None.
Proof.
  induction blobs as [|[obj blzID] blobs IH]; intros m; [done|].
  cbn [IterateObjects]. destruct (f obj blzID m) as [m1 res].
  specialize (IH m1). destruct (IterateObjects blobs f m1) as [[m2 log] err].
  by destruct res.
Qed.

(** The scan of two lists of records one after the other. *)
Lemma IterateObjects_app (f : Object → option BlobovniczaID → M → M * option Error)
    (blobs1 blobs2 : BlobStor) : ∀ m,
  IterateObjects (blobs1 ++ blobs2) f m =
    let '((m1, log1), _) := IterateObjects blobs1 f m in
    let '((m2, log2), err) := IterateObjects blobs2 f m1 in
    ((m2, log1 ++ log2), err).
Proof.
  induction blobs1 as [|[obj blzID] blobs1 IH]; intros m.
  - cbn [app IterateObjects]. by destruct (IterateObjects blobs2 f m) as [[m2 log2] err].
  - cbn [app IterateObjects]. destruct (f obj blzID m) as [m0 res].
    rewrite IH. destruct (IterateObjects blobs1 f m0) as [[m1 log1] err1].
    destruct res; cbn; by destruct (IterateObjects blobs2 f m1) as [[m2 log2] err].
Qed.

(** The handler on a tombstone whose payload does not unmarshal: an error,
    and the metabase is not touched. *)
Lemma refillObject_broken obj blzID m err :
  Type_ obj = TypeTombstone →
  tombstoneMembers (Payload obj) = Err err →
  refillObject tombstoneMembers obj blzID m
    = (m, Some (ErrWrap "could not unmarshal tombstone content" err)).
Proof.
  intros Htype Hpayload. unfold refillObject.
  rewrite decide_True by done. by rewrite Hpayload.
Qed.


End refill.


(** The handler on the recording metabase makes the calls of [refillStep]. *)
Lemma refillObject_step members fails obj blzID calls :
  refillObject (MB := recordingMetaBase fails) members obj blzID calls
    = (calls ++ (refillStep members fails (obj, blzID)).1,
       (refillStep members fails (obj, blzID)).2).
Proof.
  unfold refillObject, refillStep, tombstoneTargets. simpl.
  destruct (decide (Type_ obj = TypeTombstone)) as [Ht|Ht].
  - destruct (members (Payload obj)) as [ids|err]; simpl.
    2: by rewrite app_nil_r.
    destruct (fails (CallInhume _ _)) as [err|]; simpl; [done|].
    destruct (fails (CallPut obj blzID)) as [err|]; simpl.
    + destruct (IsErrRemoved err); simpl; by rewrite <- app_assoc.
    + by rewrite <- app_assoc.
  - destruct (fails (CallPut obj blzID)) as [err|]; simpl; [|done].
    by destruct (IsErrRemoved err).
Qed.

(** The scan with the refill handler on the recording metabase: the calls
    and the log are those of [refillSteps]. *)
Lemma IterateObjects_steps members fails blobs : ∀ calls,
  IterateObjects blobs
      (refillObject (MB := recordingMetaBase fails) members) calls
    = ((calls ++ (refillSteps members fails blobs).1,
        (refillSteps members fails blobs).2), None).
Proof.
  induction blobs as [|[obj blzID] blobs IH]; intros calls.
  - simpl. by rewrite app_nil_r.
  - cbn [IterateObjects refillSteps]. rewrite refillObject_step.
    destruct (refillStep members fails (obj, blzID)) as [cs res]. cbn [fst snd].
    rewrite IH.
    destruct (refillSteps members fails blobs) as [cs' log]. cbn [fst snd].
    rewrite <- app_assoc. by destruct res.
Qed.

End ShardFacts.

(** ** The metabase: Put, Inhume and the readers *)

Module MetaFacts.
Import Meta StoreFacts.

Lemma updateIndexes_untouched f items :
  writesItemOnly f →
  ∀ tx tx' n k,
    updateIndexes f tx items = Ok tx' →
    Forall (λ item, name item ≠ n ∨ key item ≠ k) items →
    getFromBucket tx' n k = getFromBucket tx n k.
Proof.
  intros Hf. induction items as [|item items IH]; intros tx tx' n k Hrun Hall.
  - by injection Hrun as <-.
  - simpl in Hrun. destruct (f tx item) as [tx1|err] eqn:Hitem; [|done].
    simpl in Hrun. inversion Hall as [|? ? Hother Hrest]; subst.
    rewrite (IH _ _ _ _ Hrun Hrest). by apply (Hf _ _ _ _ _ Hitem).
Qed.

Lemma putListIndexItem_local : writesItemOnly putListIndexItem.
Proof.
  intros tx item tx' n k Hrun Hother. unfold putListIndexItem in Hrun.
  destruct (decodeList _) as [lst|err]; [|done]. simpl in Hrun.
  injection Hrun as <-. case_bool_decide; [done|].
  by apply getFromBucket_bucketPut_ne.
Qed.

Lemma putFKBTIndexItem_local : writesItemOnly putFKBTIndexItem.
Proof.
  intros tx item tx' n k Hrun Hother. unfold putFKBTIndexItem in Hrun.
  destruct (getFromBucket tx (name item) (key item)) as [[]|];
    try done; injection Hrun as <-; by apply getFromBucket_bucketPut_ne.
Qed.

Lemma delListIndexItem_local : writesItemOnly delListIndexItem.
Proof.
  intros tx item tx' n k Hrun Hother. unfold delListIndexItem in Hrun.
  destruct (TxBucket tx (name item)) as [bkt|]; [|by injection Hrun as <-].
  destruct (decodeList _) as [[|x lst]|err]; try by injection Hrun as <-.
  destruct (removeFirst _ _); injection Hrun as <-.
  - by apply getFromBucket_bucketDelete_ne.
  - by apply getFromBucket_bucketPut_ne.
Qed.

Lemma delFKBTIndexItem_local : writesItemOnly delFKBTIndexItem.
Proof.
  intros tx item tx' n k Hrun Hother. unfold delFKBTIndexItem in Hrun.
  destruct (TxBucket tx (name item)) as [bkt|]; [|by injection Hrun as <-].
  destruct (bkt !! key item) as [[]|]; injection Hrun as <-; try done.
  by apply getFromBucket_bucketPut_ne.
Qed.

Lemma listIndexes_names obj :
  Forall (λ item, isIndexBucket (name item) = true) (listIndexes obj).
Proof. unfold listIndexes. destruct (ParentID obj); by repeat constructor. Qed.

Lemma fkbtIndexes_names obj :
  Forall (λ item, isIndexBucket (name item) = true) (fkbtIndexes obj).
Proof.
  unfold fkbtIndexes. apply Forall_fmap, Forall_forall. by intros [a v] _.
Qed.

Lemma index_items_elsewhere items n k :
  Forall (λ item, isIndexBucket (name item) = true) items →
  isIndexBucket n = false →
  Forall (λ item, name item ≠ n ∨ key item ≠ k) items.
Proof.
  intros Hitems Hn. eapply Forall_impl; [exact Hitems|].
  intros item Hitem. left. intros Heq. simpl in Hitem. congruence.
Qed.

Lemma typedBucketName_not_index t c n :
  typedBucketName t c = Some n → isIndexBucket n = false.
Proof. destruct t; simpl; intros [= <-]; done. Qed.

(** *** Put *)

(** Put leaves every entry outside the index buckets alone, except the
    header, the blob reference and the root marker of the object. *)
Lemma put_untouched tx obj blzID tx' n k :
  put tx obj blzID = Ok tx' →
  isIndexBucket n = false →
  k ≠ objectKey (ID obj)
  ∨ (typedBucketName (Type_ obj) (ObjContainerID obj) ≠ Some n
     ∧ n ≠ smallBucketName (ObjContainerID obj)
     ∧ n ≠ rootBucketName (ObjContainerID obj)) →
  getFromBucket tx' n k = getFromBucket tx n k.
Proof.
  intros Hput Hn Hother. unfold put in Hput. simpl in Hput.
  destruct (inGraveyard tx (AddressOf obj)); [done|].
  destruct (typedBucketName _ _) as [bn|] eqn:Hbn; [|done].
  destruct (updateListIndexes _ _ _) as [tx4|] eqn:Hlist; [|done]. simpl in Hput.
  rewrite (updateIndexes_untouched _ _ putFKBTIndexItem_local _ _ _ _ Hput)
    by (apply index_items_elsewhere; [apply fkbtIndexes_names|done]).
  rewrite (updateIndexes_untouched _ _ putListIndexItem_local _ _ _ _ Hlist)
    by (apply index_items_elsewhere; [apply listIndexes_names|done]).
  assert (Hroot : ∀ tx0,
    getFromBucket (bucketPut tx0 (rootBucketName (ObjContainerID obj))
                     (objectKey (ID obj)) VMark) n k = getFromBucket tx0 n k).
  { intros tx0. apply getFromBucket_bucketPut_ne.
    destruct Hother as [Hk|(_ & _ & Hr)]; [by right|left; congruence]. }
  assert (Hsmall : ∀ tx0 v,
    getFromBucket (bucketPut tx0 (smallBucketName (ObjContainerID obj))
                     (objectKey (ID obj)) v) n k = getFromBucket tx0 n k).
  { intros tx0 v. apply getFromBucket_bucketPut_ne.
    destruct Hother as [Hk|(_ & Hs & _)]; [by right|left; congruence]. }
  assert (Htyped : ∀ v,
    getFromBucket (bucketPut tx bn (objectKey (ID obj)) v) n k = getFromBucket tx n k).
  { intros v. apply getFromBucket_bucketPut_ne.
    destruct Hother as [Hk|(Ht & _ & _)]; [by right|left; congruence]. }
  destruct (ParentID obj), blzID; by rewrite ?Hroot, ?Hsmall, ?Htyped.
Qed.

(** Put writes the header under the object's key in the bucket of its
    type. *)
Lemma put_header tx obj blzID tx' n :
  put tx obj blzID = Ok tx' →
  typedBucketName (Type_ obj) (ObjContainerID obj) = Some n →
  getFromBucket tx' n (objectKey (ID obj)) = Some (VObject (CutPayload obj)).
Proof.
  intros Hput Hbn. unfold put in Hput. simpl in Hput.
  destruct (inGraveyard tx (AddressOf obj)); [done|].
  rewrite Hbn in Hput.
  pose proof (typedBucketName_not_index _ _ _ Hbn) as Hn.
  destruct (updateListIndexes _ _ _) as [tx4|] eqn:Hlist; [|done]. simpl in Hput.
  rewrite (updateIndexes_untouched _ _ putFKBTIndexItem_local _ _ _ _ Hput)
    by (apply index_items_elsewhere; [apply fkbtIndexes_names|done]).
  rewrite (updateIndexes_untouched _ _ putListIndexItem_local _ _ _ _ Hlist)
    by (apply index_items_elsewhere; [apply listIndexes_names|done]).
  assert (Hroot : n ≠ rootBucketName (ObjContainerID obj))
    by (destruct (Type_ obj); simpl in Hbn; congruence).
  assert (Hsmall : n ≠ smallBucketName (ObjContainerID obj))
    by (destruct (Type_ obj); simpl in Hbn; congruence).
  destruct (ParentID obj), blzID;
    rewrite ?(getFromBucket_bucketPut_ne _ (rootBucketName _)) by (left; congruence);
    rewrite ?(getFromBucket_bucketPut_ne _ (smallBucketName _)) by (left; congruence);
    apply getFromBucket_bucketPut_eq.
Qed.

Lemma put_not_removed tx obj blzID tx' :
  put tx obj blzID = Ok tx' → inGraveyard tx (AddressOf obj) = false.
Proof. unfold put. by destruct (inGraveyard _ _). Qed.

Lemma put_graveyard tx obj blzID tx' addr :
  put tx obj blzID = Ok tx' → inGraveyard tx' addr = inGraveyard tx addr.
Proof.
  intros Hput. unfold inGraveyard.
  by rewrite (put_untouched _ _ _ _ graveyardBucketName _ Hput)
    by (done || (right; destruct (Type_ obj); simpl; done)).
Qed.

(** *** Inhume *)

Lemma inhume_fold tomb target : ∀ tx,
  let tx' := foldl (λ tx addr, bucketPut tx graveyardBucketName (addressKey addr)
                                         (VAddr tomb)) tx target in
  (∀ n k, n ≠ graveyardBucketName → getFromBucket tx' n k = getFromBucket tx n k)
  ∧ (∀ addr, inGraveyard tx' addr = bool_decide (addr ∈ target) || inGraveyard tx addr).
Proof.
  induction target as [|a target IH]; intros tx; cbn [foldl].
  - split; [done|]. intros addr.
    by rewrite bool_decide_eq_false_2 by apply not_elem_of_nil.
  - destruct (IH (bucketPut tx graveyardBucketName (addressKey a) (VAddr tomb)))
      as [Hother Hgrave].
    split.
    + intros n k Hn. rewrite Hother by done.
      apply getFromBucket_bucketPut_ne. by left.
    + intros addr. rewrite Hgrave, inGraveyard_bucketPut.
      rewrite orb_assoc. f_equal.
      apply eq_true_iff_eq. rewrite orb_true_iff, !bool_decide_eq_true.
      rewrite elem_of_cons.
      split; (intros [?|?]; [right|left]; done).
Qed.

Lemma inhume_untouched tx tomb target tx' n k :
  inhume tx tomb target = Ok tx' →
  n ≠ graveyardBucketName →
  getFromBucket tx' n k = getFromBucket tx n k.
Proof.
  unfold inhume. destruct (existsb _ _); [done|]. intros [= <-].
  apply inhume_fold.
Qed.

Lemma inhume_graveyard tx tomb target tx' addr :
  inhume tx tomb target = Ok tx' →
  inGraveyard tx' addr = bool_decide (addr ∈ target) || inGraveyard tx addr.
Proof.
  unfold inhume. destruct (existsb _ _); [done|]. intros [= <-].
  apply inhume_fold.
Qed.

(** *** The readers *)

Lemma getHeader_None tx addr :
  getHeader tx addr = None ↔
  ∀ t n, typedBucketName t (addrCID addr) = Some n →
         getFromBucket tx n (objectKey (addrOID addr)) = None.
Proof.
  unfold getHeader. split.
  - intros Hnone t n Hn.
    destruct (getFromBucket tx (primaryBucketName _) _) eqn:H1; [done|].
    destruct (getFromBucket tx (tombstoneBucketName _) _) eqn:H2; [done|].
    destruct (getFromBucket tx (storageGroupBucketName _) _) eqn:H3; [done|].
    destruct t; simpl in Hn; by simplify_eq.
  - intros Hall.
    rewrite (Hall TypeRegular _ eq_refl), (Hall TypeTombstone _ eq_refl),
            (Hall TypeStorageGroup _ eq_refl).
    apply (Hall TypeLock _ eq_refl).
Qed.

(** A header found by the reader sits in one of the four buckets. *)
Lemma getHeader_Some tx addr v :
  getHeader tx addr = Some v →
  ∃ t n, typedBucketName t (addrCID addr) = Some n
         ∧ getFromBucket tx n (objectKey (addrOID addr)) = Some v.
Proof.
  unfold getHeader.
  destruct (getFromBucket tx (primaryBucketName _) _) eqn:H1.
  { intros [= <-]. by exists TypeRegular, (primaryBucketName (addrCID addr)). }
  destruct (getFromBucket tx (tombstoneBucketName _) _) eqn:H2.
  { intros [= <-]. by exists TypeTombstone, (tombstoneBucketName (addrCID addr)). }
  destruct (getFromBucket tx (storageGroupBucketName _) _) eqn:H3.
  { intros [= <-]. by exists TypeStorageGroup, (storageGroupBucketName (addrCID addr)). }
  intros H4. by exists TypeLock, (bucketNameLockers (addrCID addr)).
Qed.

(** An address recorded in the graveyard answers AlreadyRemoved to every
    reader, whatever the header buckets hold. *)
Lemma removed_answers tx addr raw :
  inGraveyard tx addr = true →
  Meta.Exists tx addr = Err ObjectAlreadyRemoved
  ∧ Head tx addr raw = Err ObjectAlreadyRemoved
  ∧ Get tx addr raw = Err ObjectAlreadyRemoved.
Proof. unfold Meta.Exists, Head, Get, get. by intros ->. Qed.

(** After Put and an Inhume of the object, its header is still in the
    bucket of its type. *)
Lemma inhumed_header_kept tx obj blzID tomb tx1 tx2 n :
  put tx obj blzID = Ok tx1 →
  inhume tx1 tomb [AddressOf obj] = Ok tx2 →
  typedBucketName (Type_ obj) (ObjContainerID obj) = Some n →
  getFromBucket tx2 n (objectKey (ID obj)) = Some (VObject (CutPayload obj))
  ∧ inGraveyard tx2 (AddressOf obj) = true.
Proof.
  intros Hput Hinhume Hn. split.
  - rewrite (inhume_untouched _ _ _ _ _ _ Hinhume)
      by (destruct (Type_ obj); simpl in Hn; congruence).
    by apply (put_header _ _ _ _ _ Hput).
  - rewrite (inhume_graveyard _ _ _ _ _ Hinhume).
    rewrite bool_decide_eq_true_2; [done|]. apply list_elem_of_here.
Qed.

(** C4.  For every address recorded in the graveyard bucket, Exists and Head
    (and Get) return the distinguished AlreadyRemoved failure, whatever the
    header buckets hold for the address. *)
Theorem graveyard_answers_AlreadyRemoved (tx : Tx) (addr : Address) (raw : bool) :
  is_Some (getFromBucket tx graveyardBucketName (addressKey addr)) →
  Meta.Exists tx addr = Err ObjectAlreadyRemoved
  ∧ Head tx addr raw = Err ObjectAlreadyRemoved
  ∧ Get tx addr raw = Err ObjectAlreadyRemoved.
Proof.
  intros Hgrave. apply removed_answers. unfold inGraveyard.
  by apply bool_decide_eq_true_2.
Qed.

(** After Put(obj) and Inhume(tomb, obj) the primary bucket still holds the
    header of obj, its address is in the graveyard, and Exists and Head
    answer AlreadyRemoved. *)
Lemma graveyard_answers_AlreadyRemoved_witness :
  getFromBucket txInhumed (primaryBucketName 1) (objectKey 20)
    = Some (VObject (CutPayload sampleObject))
  ∧ is_Some (getFromBucket txInhumed graveyardBucketName
               (addressKey (AddressOf sampleObject)))
  ∧ Meta.Exists txInhumed (AddressOf sampleObject) = Err ObjectAlreadyRemoved
  ∧ Head txInhumed (AddressOf sampleObject) false = Err ObjectAlreadyRemoved.
Proof.
  assert (Hgrave : is_Some (getFromBucket txInhumed graveyardBucketName
                              (addressKey (AddressOf sampleObject)))).
  { exists (VAddr sampleTombAddress). vm_compute. reflexivity. }
  split; [vm_compute; reflexivity|]. split; [exact Hgrave|].
  destruct (graveyard_answers_AlreadyRemoved txInhumed (AddressOf sampleObject)
              false Hgrave) as (Hexists & Hhead & _).
  by split.
Defined.

(** *** Virtual objects *)



End MetaFacts.

(** ** The metabase: Delete *)

Module DeleteFacts.
Import Meta StoreFacts MetaFacts.

(** *** The reference counter *)

Lemma countReference_lookup tx parent rc p :
  countReference tx parent rc !! p =
    if decide (AddressOf parent = p) then
      Some (match rc !! p with
            | Some nRef => mkRef (all nRef) (S (cur nRef)) (addr nRef) (obj nRef)
            | None => mkRef (parentLength tx p) 1 p parent
            end)
    else rc !! p.
Proof.
  unfold countReference. case_decide as Hp.
  - subst p. rewrite lookup_insert_eq. by destruct (rc !! AddressOf parent).
  - by rewrite lookup_insert_ne.
Qed.

(** The transaction after [delete] does not depend on the counter, and the
    counter after it is the one before with the parent of the child, if any,
    counted. *)
Lemma delete_result tx a rc tx' rc' :
  delete tx a rc = Ok (tx', rc') →
  let tx0 := bucketDelete tx graveyardBucketName (addressKey a) in
  (∀ rc2, ∃ rc2', delete tx a rc2 = Ok (tx', rc2'))
  ∧ rc' = match countedParent (tx0, get tx0 a false true) with
          | Some parent => countReference tx0 parent rc
          | None => rc
          end.
Proof.
  unfold delete, countedParent. simpl.
  destruct (get _ a false true) as [child|err] eqn:Hget.
  - destruct (deleteObject _ child false) as [tx2|err] eqn:Hdel; [|done].
    simpl. intros [= <- <-]. split; [|done].
    intros rc2. simpl. eauto.
  - destruct (IsErrNotFound err) eqn:Hnf; [|done].
    intros [= <- <-]. split; [|done].
    intros rc2. eauto.
Qed.

Lemma sightings_cons p step trace :
  sightings p (step :: trace) =
    if decide (AddressOf <$> countedParent step = Some p)
    then step :: sightings p trace
    else sightings p trace.
Proof. unfold sightings. by rewrite filter_cons. Qed.

(** The counter after the first loop of deleteGroup, entry by entry. *)
Lemma deleteEach_counter addrs : ∀ tx rc0 tx1 rc,
  deleteEach tx addrs rc0 = Ok (tx1, rc) →
  ∀ p, rc !! p = continuedReference (rc0 !! p) p (deleteTrace tx addrs).
Proof.
  induction addrs as [|a rest IH]; intros tx rc0 tx1 rc Hrun p.
  - injection Hrun as <- <-. simpl. unfold continuedReference, expectedReference.
    destruct (rc0 !! p) as [[n c ad o]|]; simpl; [|done].
    by rewrite Nat.add_0_r.
  - cbn [deleteEach] in Hrun.
    destruct (delete tx a rc0) as [[tx' rc0']|err] eqn:Hdel; [|done].
    destruct (delete_result _ _ _ _ _ Hdel) as [Htx Hrc0'].
    destruct (Htx ∅) as [rc2' Hdel0].
    cbn [deleteTrace]. rewrite Hdel0.
    rewrite (IH _ _ _ _ Hrun p). clear IH Hrun Hdel Hdel0 Htx.
    set (tx0 := bucketDelete tx graveyardBucketName (addressKey a)) in *.
    set (step := (tx0, get tx0 a false true)) in *.
    set (trace := deleteTrace tx' rest).
    unfold continuedReference, expectedReference.
    rewrite sightings_cons.
    destruct (countedParent step) as [parent|] eqn:Hparent; cbn [fmap option_fmap option_map].
    + subst rc0'. rewrite countReference_lookup.
      destruct (decide (AddressOf parent = p)) as [Hp|Hp].
      * rewrite decide_True by congruence.
        destruct (rc0 !! p) as [[n c ad o]|]; simpl.
        -- f_equal. f_equal. lia.
        -- rewrite Hparent. simpl. done.
      * rewrite decide_False by congruence. done.
    + subst rc0'. rewrite decide_False by done. done.
Qed.

(** Every entry of the counter is filed under the address of the parent it
    counts. *)
Lemma deleteEach_keys tx addrs tx1 rc p nRef :
  deleteEach tx addrs ∅ = Ok (tx1, rc) →
  rc !! p = Some nRef →
  addr nRef = p ∧ AddressOf (obj nRef) = p.
Proof.
  intros Hrun Hp. rewrite (deleteEach_counter _ _ _ _ _ Hrun p) in Hp.
  rewrite lookup_empty in Hp. unfold continuedReference, expectedReference in Hp.
  destruct (sightings p (deleteTrace tx addrs)) as [|first hits] eqn:Hhits; [done|].
  assert (Hin : first ∈ sightings p (deleteTrace tx addrs))
    by (rewrite Hhits; apply list_elem_of_here).
  apply list_elem_of_filter in Hin as [Hfirst _].
  destruct (countedParent first) as [parent|]; [|done].
  simpl in *. injection Hp as <-. simpl. split; [done|]. congruence.
Qed.

(** *** Deleting only removes *)

Lemma onlyRemoves_refl tx : onlyRemoves tx tx.
Proof. by intros n k. Qed.

Lemma onlyRemoves_trans tx1 tx2 tx3 :
  onlyRemoves tx1 tx2 → onlyRemoves tx2 tx3 → onlyRemoves tx1 tx3.
Proof.
  intros H12 H23 n k. destruct (H12 n k) as [Ha Hb], (H23 n k) as [Hc Hd].
  split; [auto|]. intros Hn v Hv. auto.
Qed.

Lemma onlyRemoves_bucketDelete tx n k : onlyRemoves tx (bucketDelete tx n k).
Proof.
  intros n' k'. rewrite getFromBucket_bucketDelete.
  case_decide; [by split|by split].
Qed.

(** A write over an entry that is there, in an index bucket. *)
Lemma onlyRemoves_overwrite tx n k v :
  isIndexBucket n = true →
  is_Some (getFromBucket tx n k) →
  onlyRemoves tx (bucketPut tx n k v).
Proof.
  intros Hn [v0 Hv0] n' k'. rewrite getFromBucket_bucketPut.
  case_decide as Hd.
  - destruct Hd as [<- <-]. split; [congruence|]. congruence.
  - by split.
Qed.

Lemma delListIndexItem_onlyRemoves tx item tx' :
  isIndexBucket (name item) = true →
  delListIndexItem tx item = Ok tx' →
  onlyRemoves tx tx'.
Proof.
  intros Hn Hrun. unfold delListIndexItem in Hrun.
  destruct (TxBucket tx (name item)) as [bkt|] eqn:Hbkt;
    [|injection Hrun as <-; apply onlyRemoves_refl].
  rewrite (TxBucket_lookup _ _ _ (key item) Hbkt) in Hrun.
  destruct (getFromBucket tx (name item) (key item)) as [v|] eqn:Hentry.
  2: { injection Hrun as <-. apply onlyRemoves_refl. }
  destruct (decodeList (Some v)) as [[|x lst]|err];
    try (injection Hrun as <-; apply onlyRemoves_refl).
  destruct (removeFirst _ _); injection Hrun as <-.
  - apply onlyRemoves_bucketDelete.
  - apply onlyRemoves_overwrite; [done|]. rewrite Hentry. eauto.
Qed.

Lemma delFKBTIndexItem_onlyRemoves tx item tx' :
  isIndexBucket (name item) = true →
  delFKBTIndexItem tx item = Ok tx' →
  onlyRemoves tx tx'.
Proof.
  intros Hn Hrun. unfold delFKBTIndexItem in Hrun.
  destruct (TxBucket tx (name item)) as [bkt|] eqn:Hbkt;
    [|injection Hrun as <-; apply onlyRemoves_refl].
  rewrite (TxBucket_lookup _ _ _ (key item) Hbkt) in Hrun.
  destruct (getFromBucket tx (name item) (key item)) as [[]|] eqn:Hentry;
    injection Hrun as <-; try apply onlyRemoves_refl.
  apply onlyRemoves_overwrite; [done|]. rewrite Hentry. eauto.
Qed.

Lemma updateIndexes_onlyRemoves f items :
  (∀ tx item tx', isIndexBucket (name item) = true →
                  f tx item = Ok tx' → onlyRemoves tx tx') →
  Forall (λ item, isIndexBucket (name item) = true) items →
  ∀ tx tx', updateIndexes f tx items = Ok tx' → onlyRemoves tx tx'.
Proof.
  intros Hf. induction 1 as [|item items Hitem _ IH]; intros tx tx' Hrun.
  - injection Hrun as <-. apply onlyRemoves_refl.
  - simpl in Hrun. destruct (f tx item) as [tx1|err] eqn:Hstep; [|done].
    simpl in Hrun. eapply onlyRemoves_trans; [by eapply Hf|by apply IH].
Qed.

Lemma delUniqueIndexes_onlyRemoves tx obj isParent tx' :
  delUniqueIndexes tx obj isParent = Ok tx' → onlyRemoves tx tx'.
Proof.
  unfold delUniqueIndexes, delUniqueIndexItem. intros Hrun.
  assert (Hfirst : ∃ tx1, onlyRemoves tx tx1 ∧
            tx' = bucketDelete
                    (bucketDelete
                       (bucketDelete tx1 (smallBucketName (ObjContainerID obj))
                                     (objectKey (ID obj)))
                       (rootBucketName (ObjContainerID obj)) (objectKey (ID obj)))
                    toMoveItBucketName (addressKey (AddressOf obj))).
  { destruct isParent; simpl in Hrun.
    - injection Hrun as <-. eexists. split; [apply onlyRemoves_bucketDelete|done].
    - destruct (Type_ obj); simpl in Hrun; try done;
        injection Hrun as <-; eexists; (split; [apply onlyRemoves_bucketDelete|done]). }
  destruct Hfirst as (tx1 & H1 & ->).
  repeat (eapply onlyRemoves_trans; [|apply onlyRemoves_bucketDelete]). exact H1.
Qed.

Lemma deleteObject_onlyRemoves tx obj isParent tx' :
  deleteObject tx obj isParent = Ok tx' → onlyRemoves tx tx'.
Proof.
  unfold deleteObject. intros Hrun.
  destruct (delUniqueIndexes tx obj isParent) as [tx1|] eqn:H1; [|done].
  destruct (updateListIndexes tx1 obj delListIndexItem) as [tx2|] eqn:H2; [|done].
  destruct (updateFKBTIndexes tx2 obj delFKBTIndexItem) as [tx3|] eqn:H3; [|done].
  injection Hrun as <-.
  eapply onlyRemoves_trans; [by eapply delUniqueIndexes_onlyRemoves|].
  eapply onlyRemoves_trans.
  - eapply (updateIndexes_onlyRemoves delListIndexItem);
      [apply delListIndexItem_onlyRemoves|apply listIndexes_names|exact H2].
  - eapply (updateIndexes_onlyRemoves delFKBTIndexItem);
      [apply delFKBTIndexItem_onlyRemoves|apply fkbtIndexes_names|exact H3].
Qed.

Lemma delete_onlyRemoves tx a rc tx' rc' :
  delete tx a rc = Ok (tx', rc') → onlyRemoves tx tx'.
Proof.
  unfold delete. intros Hrun.
  eapply onlyRemoves_trans; [apply onlyRemoves_bucketDelete|].
  destruct (get _ a false true) as [child|err].
  - destruct (deleteObject _ child false) as [tx2|] eqn:Hdel; [|done].
    injection Hrun as <- _. by eapply deleteObject_onlyRemoves.
  - destruct (IsErrNotFound err); [|done]. injection Hrun as <- _.
    apply onlyRemoves_refl.
Qed.

Lemma deleteEach_onlyRemoves addrs : ∀ tx rc tx' rc',
  deleteEach tx addrs rc = Ok (tx', rc') → onlyRemoves tx tx'.
Proof.
  induction addrs as [|a rest IH]; intros tx rc tx' rc' Hrun.
  - injection Hrun as <- _. apply onlyRemoves_refl.
  - cbn [deleteEach] in Hrun.
    destruct (delete tx a rc) as [[tx1 rc1]|] eqn:Hdel; [|done].
    eapply onlyRemoves_trans; [by eapply delete_onlyRemoves|by eapply IH].
Qed.

Lemma removeParents_onlyRemoves parents : ∀ tx tx',
  removeParents tx parents = Ok tx' → onlyRemoves tx tx'.
Proof.
  induction parents as [|parent rest IH]; intros tx tx' Hrun.
  - injection Hrun as <-. apply onlyRemoves_refl.
  - cbn [removeParents] in Hrun.
    destruct (deleteObject tx parent true) as [tx1|] eqn:Hdel; [|done].
    eapply onlyRemoves_trans; [by eapply deleteObject_onlyRemoves|by eapply IH].
Qed.

(** The second loop of deleteGroup removes the fully counted parents, each
    by one call of deleteObject, and touches nothing for the other entries. *)
Lemma deleteParents_fullyCounted refs : ∀ tx,
  deleteParents tx refs = removeParents tx (obj <$> fullyCounted refs).
Proof.
  induction refs as [|refNum rest IH]; intros tx; [done|].
  cbn [deleteParents]. unfold fullyCounted. rewrite filter_cons.
  fold (fullyCounted rest). case_decide as Hfull.
  - cbn [fmap list_fmap removeParents].
    destruct (deleteObject tx (obj refNum) true); [apply IH|done].
  - apply IH.
Qed.

(** deleteObject of a parent removes the parent's entry of the parent
    index. *)
Lemma deleteObject_parent_entry tx parent tx' :
  deleteObject tx parent true = Ok tx' →
  getFromBucket tx' (parentBucketName (ObjContainerID parent)) (objectKey (ID parent))
    = None.
Proof.
  unfold deleteObject. intros Hrun.
  destruct (delUniqueIndexes tx parent true) as [tx1|] eqn:H1; [|done].
  destruct (updateListIndexes tx1 parent delListIndexItem) as [tx2|] eqn:H2; [|done].
  destruct (updateFKBTIndexes tx2 parent delFKBTIndexItem) as [tx3|] eqn:H3; [|done].
  injection Hrun as <-.
  apply (updateIndexes_onlyRemoves delFKBTIndexItem _ delFKBTIndexItem_onlyRemoves
           (fkbtIndexes_names parent) _ _ H3).
  apply (updateIndexes_onlyRemoves delListIndexItem _ delListIndexItem_onlyRemoves
           (listIndexes_names parent) _ _ H2).
  unfold delUniqueIndexes, delUniqueIndexItem in H1. simpl in H1.
  injection H1 as <-.
  repeat (rewrite getFromBucket_bucketDelete_ne by (left; done)).
  apply getFromBucket_bucketDelete_eq.
Qed.

Lemma removeParents_parent_entries parents : ∀ tx tx' parent,
  removeParents tx parents = Ok tx' →
  parent ∈ parents →
  getFromBucket tx' (parentBucketName (ObjContainerID parent)) (objectKey (ID parent))
    = None.
Proof.
  induction parents as [|par rest IH]; intros tx tx' parent Hrun Hin.
  - by apply elem_of_nil in Hin.
  - cbn [removeParents] in Hrun.
    destruct (deleteObject tx par true) as [tx1|] eqn:Hdel; [|done].
    apply elem_of_cons in Hin as [->|Hin].
    + apply (removeParents_onlyRemoves _ _ _ Hrun).
      by apply deleteObject_parent_entry in Hdel.
    + by eapply IH.
Qed.

(** *** Parent reference counting *)



(** *** Deleting an address *)

Lemma headersWF_onlyRemoves tx tx' :
  onlyRemoves tx tx' → headersWF tx → headersWF tx'.
Proof.
  intros Hrem [Hwf Huniq]. split.
  - intros t c n k v Hn Hv. apply (Hwf t c n k v Hn).
    apply (Hrem n k); [by eapply typedBucketName_not_index|done].
  - intros t1 t2 c n1 n2 k Hn1 Hn2 [v1 Hv1] [v2 Hv2].
    apply (Huniq t1 t2 c n1 n2 k Hn1 Hn2).
    + exists v1. apply (Hrem n1 k); [by eapply typedBucketName_not_index|done].
    + exists v2. apply (Hrem n2 k); [by eapply typedBucketName_not_index|done].
Qed.

(** db.get with raw set never assembles: what it returns is a stored
    header. *)
Lemma get_raw_Ok tx a child :
  get tx a false true = Ok child → getHeader tx a = Some (VObject child).
Proof.
  unfold get, getVirtualObject. simpl.
  destruct (getHeader tx a) as [[]|]; simpl; try done.
  - by intros [= ->].
  - destruct (decodeList _) as [[|x lst]|]; done.
Qed.

Lemma get_raw_NotFound tx a err :
  get tx a false true = Err err → IsErrNotFound err = true →
  getHeader tx a = None.
Proof.
  unfold get. simpl.
  destruct (getHeader tx a) as [[]|]; simpl; try done; by intros [= <-].
Qed.

Lemma inGraveyard_false tx a :
  inGraveyard tx a = false ↔ getFromBucket tx graveyardBucketName (addressKey a) = None.
Proof.
  unfold inGraveyard. rewrite bool_decide_eq_false, <- eq_None_not_Some. done.
Qed.

(** One step of the loop clears the address it is called for: no graveyard
    record, no header. *)
Lemma delete_clears tx a rc tx' rc' :
  headersWF tx →
  delete tx a rc = Ok (tx', rc') →
  inGraveyard tx' a = false ∧ getHeader tx' a = None.
Proof.
  intros Hwf Hrun. unfold delete in Hrun.
  set (tx0 := bucketDelete tx graveyardBucketName (addressKey a)) in *.
  assert (Hwf0 : headersWF tx0)
    by (eapply headersWF_onlyRemoves; [apply onlyRemoves_bucketDelete|done]).
  assert (Hgrave0 : getFromBucket tx0 graveyardBucketName (addressKey a) = None)
    by apply getFromBucket_bucketDelete_eq.
  destruct (get tx0 a false true) as [child|err] eqn:Hget.
  - destruct (deleteObject tx0 child false) as [tx2|] eqn:Hdel; [|done].
    injection Hrun as <- _.
    pose proof (deleteObject_onlyRemoves _ _ _ _ Hdel) as Hrem.
    split; [apply inGraveyard_false; by apply (Hrem _ _)|].
    apply get_raw_Ok, getHeader_Some in Hget as (t & n & Hn & Hentry).
    destruct Hwf0 as [Hwf0 Huniq0].
    destruct (Hwf0 _ _ _ _ _ Hn Hentry) as (hdr & [= <-] & Ht & Hc & [= Hid]).
    (* the header of [a] sits in the bucket of the child's type only *)
    assert (Hgone : getFromBucket tx2 n (objectKey (addrOID a)) = None).
    { unfold deleteObject in Hdel.
      destruct (delUniqueIndexes tx0 child false) as [tx3|] eqn:H1; [|done].
      destruct (updateListIndexes tx3 child delListIndexItem) as [tx4|] eqn:H2; [|done].
      destruct (updateFKBTIndexes tx4 child delFKBTIndexItem) as [tx5|] eqn:H3; [|done].
      injection Hdel as <-.
      apply (updateIndexes_onlyRemoves delFKBTIndexItem _ delFKBTIndexItem_onlyRemoves
               (fkbtIndexes_names child) _ _ H3).
      apply (updateIndexes_onlyRemoves delListIndexItem _ delListIndexItem_onlyRemoves
               (listIndexes_names child) _ _ H2).
      unfold delUniqueIndexes, delUniqueIndexItem in H1.
      cbn [negb AddressOf addrCID addrOID] in H1.
      rewrite Hid. rewrite <- Hc, <- Ht in Hn.
      destruct (Type_ child); cbn [typedBucketName rbind] in Hn, H1; try done;
        injection Hn as <-; injection H1 as <-;
        repeat (rewrite getFromBucket_bucketDelete_ne by (left; done));
        apply getFromBucket_bucketDelete_eq. }
    apply getHeader_None. intros t' n' Hn'.
    destruct (getFromBucket tx2 n' (objectKey (addrOID a))) as [v'|] eqn:Hv'; [|done].
    assert (Hv0 : getFromBucket tx0 n' (objectKey (addrOID a)) = Some v')
      by (apply (Hrem n' _); [by eapply typedBucketName_not_index|done]).
    assert (t' = t) as -> by (eapply (Huniq0 t' t); eauto).
    congruence.
  - destruct (IsErrNotFound err) eqn:Hnf; [|done]. injection Hrun as <- _.
    split; [by apply inGraveyard_false|]. by eapply get_raw_NotFound.
Qed.

Lemma cleared_onlyRemoves tx tx' a :
  onlyRemoves tx tx' →
  inGraveyard tx a = false ∧ getHeader tx a = None →
  inGraveyard tx' a = false ∧ getHeader tx' a = None.
Proof.
  intros Hrem [Hgrave Hhdr]. split.
  - apply inGraveyard_false, (Hrem _ _). by apply inGraveyard_false.
  - apply getHeader_None. intros t n Hn. apply (Hrem _ _).
    by apply (proj1 (getHeader_None tx a) Hhdr t n).
Qed.

Lemma deleteEach_clears addrs : ∀ tx rc tx' rc' a,
  headersWF tx →
  a ∈ addrs →
  deleteEach tx addrs rc = Ok (tx', rc') →
  inGraveyard tx' a = false ∧ getHeader tx' a = None.
Proof.
  induction addrs as [|a0 rest IH]; intros tx rc tx' rc' a Hwf Hin Hrun.
  - by apply elem_of_nil in Hin.
  - cbn [deleteEach] in Hrun.
    destruct (delete tx a0 rc) as [[tx1 rc1]|] eqn:Hdel; [|done].
    apply elem_of_cons in Hin as [->|Hin].
    + apply (cleared_onlyRemoves tx1); [by eapply deleteEach_onlyRemoves|].
      by eapply delete_clears.
    + eapply IH; [|done|done].
      eapply headersWF_onlyRemoves; [by eapply delete_onlyRemoves|done].
Qed.

(** An address with no header and no children recorded is deleted without
    error; only its graveyard record goes. *)
Lemma delete_absent tx a rc :
  getHeader tx a = None →
  getFromBucket tx (parentBucketName (addrCID a)) (objectKey (addrOID a)) = None →
  delete tx a rc = Ok (bucketDelete tx graveyardBucketName (addressKey a), rc).
Proof.
  intros Hhdr Hpar. unfold delete, get, getVirtualObject. simpl.
  assert (Hhdr0 : getHeader (bucketDelete tx graveyardBucketName (addressKey a)) a = None).
  { apply getHeader_None. intros t n Hn.
    rewrite getFromBucket_bucketDelete_ne
      by (left; destruct t; simpl in Hn; congruence).
    by apply (proj1 (getHeader_None tx a) Hhdr t n). }
  rewrite Hhdr0.
  rewrite getFromBucket_bucketDelete_ne by (by left). by rewrite Hpar.
Qed.

(** Put keeps the header buckets well formed when the address has no header
    yet. *)
Lemma headersWF_empty : headersWF ∅.
Proof.
  split.
  - intros t c n k v _. by rewrite getFromBucket_empty.
  - intros t1 t2 c n1 n2 k _ _ [v Hv]. by rewrite getFromBucket_empty in Hv.
Qed.

Lemma typedBucketName_inj t1 c1 t2 c2 n :
  typedBucketName t1 c1 = Some n → typedBucketName t2 c2 = Some n →
  t1 = t2 ∧ c1 = c2.
Proof. destruct t1, t2; simpl; intros [= <-] [=]; by subst. Qed.

Lemma put_typed_entry tx obj blzID tx' t c n k :
  put tx obj blzID = Ok tx' →
  typedBucketName t c = Some n →
  getFromBucket tx' n k =
    if decide (t = Type_ obj ∧ c = ObjContainerID obj ∧ k = objectKey (ID obj))
    then Some (VObject (CutPayload obj))
    else getFromBucket tx n k.
Proof.
  intros Hput Hn. case_decide as Hd.
  - destruct Hd as (-> & -> & ->). by apply (put_header _ _ _ _ _ Hput).
  - apply (put_untouched _ _ _ _ _ _ Hput); [by eapply typedBucketName_not_index|].
    destruct (decide (k = objectKey (ID obj))) as [->|Hk]; [right|by left].
    split; [|destruct t; simpl in Hn; split; congruence].
    intros Hn'. destruct (typedBucketName_inj _ _ _ _ _ Hn Hn') as [-> ->].
    by apply Hd.
Qed.

Lemma put_headersWF tx obj blzID tx' :
  headersWF tx →
  getHeader tx (AddressOf obj) = None →
  put tx obj blzID = Ok tx' →
  headersWF tx'.
Proof.
  intros [Hwf Huniq] Hfresh Hput. split.
  - intros t c n k v Hn. rewrite (put_typed_entry _ _ _ _ _ _ _ _ Hput Hn).
    case_decide as Hd; [|by apply Hwf].
    destruct Hd as (-> & -> & ->). intros [= <-]. by exists (CutPayload obj).
  - intros t1 t2 c n1 n2 k Hn1 Hn2.
    rewrite (put_typed_entry _ _ _ _ _ _ _ _ Hput Hn1),
            (put_typed_entry _ _ _ _ _ _ _ _ Hput Hn2).
    pose proof (proj1 (getHeader_None tx (AddressOf obj)) Hfresh) as Hnone.
    simpl in Hnone.
    destruct (decide (t1 = Type_ obj ∧ c = ObjContainerID obj ∧ k = objectKey (ID obj)))
      as [(He1 & Hc1 & Hk1)|H1];
      destruct (decide (t2 = Type_ obj ∧ c = ObjContainerID obj ∧ k = objectKey (ID obj)))
      as [(He2 & Hc2 & Hk2)|H2].
    + intros _ _. congruence.
    + intros _ [v Hv]. subst c k. by rewrite (Hnone _ _ Hn2) in Hv.
    + intros [v Hv] _. subst c k. by rewrite (Hnone _ _ Hn1) in Hv.
    + apply (Huniq t1 t2 c n1 n2 k Hn1 Hn2).
Qed.

Lemma inhume_headersWF tx tomb target tx' :
  headersWF tx → inhume tx tomb target = Ok tx' → headersWF tx'.
Proof.
  intros [Hwf Huniq] Hrun.
  assert (Hsame : ∀ t c n k, typedBucketName t c = Some n →
                             getFromBucket tx' n k = getFromBucket tx n k).
  { intros t c n k Hn. apply (inhume_untouched _ _ _ _ _ _ Hrun).
    destruct t; simpl in Hn; congruence. }
  split.
  - intros t c n k v Hn. rewrite (Hsame _ _ _ _ Hn). by apply Hwf.
  - intros t1 t2 c n1 n2 k Hn1 Hn2.
    rewrite (Hsame _ _ _ _ Hn1), (Hsame _ _ _ _ Hn2).
    apply (Huniq t1 t2 c n1 n2 k Hn1 Hn2).
Qed.

(** C10, amended.  Delete of an address that has no header and no children
    recorded in the parent index succeeds and removes the graveyard record
    of the address, nothing else.  After any successful Delete of a batch
    that contains an address, on a metabase with well-formed header buckets,
    the address is neither in the graveyard nor in a header bucket, so no
    reader answers AlreadyRemoved for it; Exists tells whether the address
    is still the parent of stored children, and when it is not, Exists
    answers false and Get and Head answer NotFound. *)
Theorem Delete_clears_address :
  (∀ (tx : Tx) (a : Address),
     getHeader tx a = None →
     getFromBucket tx (parentBucketName (addrCID a)) (objectKey (addrOID a)) = None →
     Delete tx [a] = (bucketDelete tx graveyardBucketName (addressKey a), None))
  ∧ (∀ (tx : Tx) (addrs : list Address) (a : Address) (tx' : Tx)
       (order : referenceCounter → list referenceNumber),
       headersWF tx →
       a ∈ addrs →
       deleteGroupIn tx addrs order = Ok tx' →
       let children :=
         getFromBucket tx' (parentBucketName (addrCID a)) (objectKey (addrOID a)) in
       inGraveyard tx' a = false
       ∧ getHeader tx' a = None
       ∧ Meta.Exists tx' a = Ok (bool_decide (is_Some children))
       ∧ (∀ raw, Get tx' a raw ≠ Err ObjectAlreadyRemoved
                 ∧ Head tx' a raw ≠ Err ObjectAlreadyRemoved)
       ∧ (children = None →
          Meta.Exists tx' a = Ok false
          ∧ ∀ raw, Get tx' a raw = Err ObjectNotFound
                   ∧ Head tx' a raw = Err ObjectNotFound)).
Proof.
  split.
  - intros tx a Hhdr Hpar. unfold Delete, Update, deleteGroup. cbn [deleteEach].
    rewrite (delete_absent _ _ _ Hhdr Hpar). by rewrite map_to_list_empty.
  - intros tx addrs a tx' order Hwf Hin Hrun children.
    unfold deleteGroupIn in Hrun.
    destruct (deleteEach tx addrs ∅) as [[tx1 rc]|] eqn:Heach; [|done].
    rewrite deleteParents_fullyCounted in Hrun.
    destruct (cleared_onlyRemoves tx1 tx' a) as [Hgrave Hhdr].
    { by eapply removeParents_onlyRemoves. }
    { by eapply deleteEach_clears. }
    assert (Hget : ∀ raw, get tx' a true raw = getVirtualObject tx' a raw).
    { intros raw. unfold get. by rewrite Hgrave, Hhdr. }
    assert (Hex : Meta.Exists tx' a = Ok (bool_decide (is_Some children))).
    { unfold Meta.Exists. rewrite Hgrave, Hhdr.
      by rewrite (bool_decide_eq_false_2 (is_Some None)) by (by intros [? ?]). }
    split; [done|]. split; [done|]. split; [done|]. split.
    + intros raw. unfold Get, Head. rewrite Hget.
      assert (Hvirt : getVirtualObject tx' a raw ≠ Err ObjectAlreadyRemoved).
      { unfold getVirtualObject, decodeList.
        destruct (getFromBucket _ _ _) as [[hdr|[|x lst]| | | |]|];
          cbn [rbind]; try discriminate.
        destruct raw; [discriminate|]. destruct (_ ≫= Parent); discriminate. }
      by split.
    + intros Hnone. rewrite Hex.
      split; [by rewrite Hnone, (bool_decide_eq_false_2 (is_Some None))
                by (by intros [? ?])|].
      intros raw. unfold Get, Head. rewrite Hget. unfold getVirtualObject.
      fold children. by rewrite Hnone.
Qed.

(** After Put(obj), Inhume(tomb, obj) and Delete(obj) the address reads as
    plain NotFound. *)
Lemma Delete_clears_address_witness :
  let a := AddressOf sampleObject in
  let order := λ rc : referenceCounter, (map_to_list rc).*2 in
  let tx' := (Delete txInhumed [a]).1 in
  headersWF txInhumed
  ∧ a ∈ [a]
  ∧ deleteGroupIn txInhumed [a] order = Ok tx'
  ∧ Meta.Exists txInhumed a = Err ObjectAlreadyRemoved
  ∧ Meta.Exists tx' a = Ok false
  ∧ Get tx' a false = Err ObjectNotFound.
Proof.
  intros a order tx'.
  assert (Hwf : headersWF txInhumed).
  { apply (inhume_headersWF (Update ∅ (λ tx, put tx sampleObject None)).1
             sampleTombAddress [AddressOf sampleObject]);
      [|by_vm].
    apply (put_headersWF ∅ sampleObject None); [apply headersWF_empty|by_vm|by_vm]. }
  assert (Hin : a ∈ [a]) by apply list_elem_of_here.
  assert (Hrun : deleteGroupIn txInhumed [a] order = Ok tx')
    by by_vm.
  split; [exact Hwf|]. split; [exact Hin|]. split; [exact Hrun|].
  split; [by_vm|].
  destruct (proj2 Delete_clears_address txInhumed [a] a tx' order Hwf Hin Hrun)
    as (_ & _ & _ & _ & Hgone).
  destruct Hgone as [Hex Hget]; [by_vm|].
  split; [exact Hex|apply Hget].
Defined.

(** C10, as stated, fails: the address of a virtual parent has no header of
    its own, yet Delete of it fails with the SplitInfoError that db.get
    returns for raw reads; the transaction is rolled back, the graveyard
    record stays and Exists still answers AlreadyRemoved. *)
Lemma Delete_fails_on_virtual_parent :
  let a := AddressOf sampleParent in
  getHeader txParentInhumed a = None
  ∧ Delete txParentInhumed [a]
    = (txParentInhumed,
       Some (SplitInfoError (mkSplitInfo (Some 7%N) (Some 11%N) None)))
  ∧ Meta.Exists (Delete txParentInhumed [a]).1 a = Err ObjectAlreadyRemoved.
Proof. intros a. repeat split; by_vm. Qed.

End DeleteFacts.

(** ** The refill on the bolt metabase *)

Module RefillFacts.
Import Meta Shard StoreFacts MetaFacts DeleteFacts ShardFacts.

(** C1, as stated, fails.  A metabase reached by Put of an object and Put of
    a tombstone for it (no Inhume) answers Exists = true for the object; after
    Reset and refill the object answers AlreadyRemoved.  A metabase reached
    by Put of an object and an Inhume under the address of a tombstone that
    is not stored answers AlreadyRemoved; after Reset and refill the object
    exists again. *)
Lemma refill_changes_observations :
  let a := mkAddress 1 10 in
  (putAll ∅ blobsNotInhumed = Ok txNotInhumed
   ∧ Meta.Exists txNotInhumed a = Ok true
   ∧ (refillMetabase sampleMembers blobsNotInhumed txNotInhumed).2 = None
   ∧ Meta.Exists (refillMetabase sampleMembers blobsNotInhumed txNotInhumed).1 a
     = Err ObjectAlreadyRemoved)
  ∧ (Meta.Exists txInhumedAlone a = Err ObjectAlreadyRemoved
     ∧ (refillMetabase sampleMembers [(regular 1 10, Some 1%N)] txInhumedAlone).2 = None
     ∧ Meta.Exists (refillMetabase sampleMembers [(regular 1 10, Some 1%N)]
                      txInhumedAlone).1 a
       = Ok true).
Proof. repeat split; vm_compute; reflexivity. Qed.

(** *** The index buckets during a refill *)

Lemma indexesWF_empty : indexesWF ∅.
Proof.
  repeat split; intros; try apply getFromBucket_empty.
  all: by rewrite getFromBucket_empty in *.
Qed.

(** A write outside the parent index, the attribute buckets and the locks. *)
Lemma indexesWF_bucketPut_other tx n k v :
  isIndexBucket n = false →
  (∀ c, n ≠ bucketNameLocked c) →
  indexesWF tx → indexesWF (bucketPut tx n k v).
Proof.
  intros Hidx Hlock (Hpar & Hattr & Hlocked). repeat split.
  - intros c k' v'. rewrite getFromBucket_bucketPut_ne; [apply Hpar|].
    left. intros ->. done.
  - intros c a k' v'. rewrite getFromBucket_bucketPut_ne; [apply Hattr|].
    left. intros ->. done.
  - intros c k'. rewrite getFromBucket_bucketPut_ne; [apply Hlocked|].
    left. apply Hlock.
Qed.

Lemma indexesWF_bucketPut_list tx c k lst :
  indexesWF tx → indexesWF (bucketPut tx (parentBucketName c) k (VList lst)).
Proof.
  intros (Hpar & Hattr & Hlocked). repeat split.
  - intros c' k' v'. rewrite getFromBucket_bucketPut.
    case_decide; [intros [= <-]; by eexists|apply Hpar].
  - intros c' a k' v'. rewrite getFromBucket_bucketPut_ne by (by left). apply Hattr.
  - intros c' k'. rewrite getFromBucket_bucketPut_ne by (by left). apply Hlocked.
Qed.

Lemma indexesWF_bucketPut_nested tx c a k keys :
  indexesWF tx → indexesWF (bucketPut tx (attributeBucketName c a) k (VSubBucket keys)).
Proof.
  intros (Hpar & Hattr & Hlocked). repeat split.
  - intros c' k' v'. rewrite getFromBucket_bucketPut_ne by (by left). apply Hpar.
  - intros c' a' k' v'. rewrite getFromBucket_bucketPut.
    case_decide; [intros [= <-]; by eexists|apply Hattr].
  - intros c' k'. rewrite getFromBucket_bucketPut_ne by (by left). apply Hlocked.
Qed.

(** The list items of an object are put without error into a parent index
    that holds lists. *)
Lemma putList_indexesWF items :
  Forall (λ item, ∃ c, name item = parentBucketName c) items →
  ∀ tx, indexesWF tx →
        ∃ tx', updateIndexes putListIndexItem tx items = Ok tx' ∧ indexesWF tx'.
Proof.
  induction 1 as [|item items [c0 Hname] _ IH]; intros tx Hwf.
  - by exists tx.
  - cbn [updateIndexes]. unfold putListIndexItem at 1.
    assert (Hdec : ∃ lst, decodeList (getFromBucket tx (name item) (key item)) = Ok lst).
    { destruct (getFromBucket tx (name item) (key item)) as [v|] eqn:Hentry;
        [|by exists []].
      rewrite Hname in Hentry. destruct Hwf as (Hpar & _ & _).
      destruct (Hpar _ _ _ Hentry) as [lst ->]. by exists lst. }
    destruct Hdec as [lst ->]. cbn [rbind]. apply IH.
    case_bool_decide; [done|]. rewrite Hname. by apply indexesWF_bucketPut_list.
Qed.

(** The FKBT items of an object are put without error into attribute buckets
    that hold nested buckets. *)
Lemma putFKBT_indexesWF items :
  Forall (λ item, ∃ c a, name item = attributeBucketName c a) items →
  ∀ tx, indexesWF tx →
        ∃ tx', updateIndexes putFKBTIndexItem tx items = Ok tx' ∧ indexesWF tx'.
Proof.
  induction 1 as [|item items (c0 & a0 & Hname) _ IH]; intros tx Hwf.
  - by exists tx.
  - cbn [updateIndexes].
    assert (Hstep : ∃ keys,
              putFKBTIndexItem tx item
              = Ok (bucketPut tx (name item) (key item) (VSubBucket keys))).
    { unfold putFKBTIndexItem.
      destruct (getFromBucket tx (name item) (key item)) as [v|] eqn:Hentry.
      - rewrite Hname in Hentry. destruct Hwf as (_ & Hattr & _).
        destruct (Hattr _ _ _ _ Hentry) as [keys ->]. by eexists.
      - by eexists. }
    destruct Hstep as [keys ->]. cbn [rbind]. apply IH.
    rewrite Hname. by apply indexesWF_bucketPut_nested.
Qed.

Lemma listIndexes_parent_names obj :
  Forall (λ item, ∃ c, name item = parentBucketName c) (listIndexes obj).
Proof.
  unfold listIndexes. destruct (ParentID obj); repeat constructor. by eexists.
Qed.

Lemma fkbtIndexes_attribute_names obj :
  Forall (λ item, ∃ c a, name item = attributeBucketName c a) (fkbtIndexes obj).
Proof.
  unfold fkbtIndexes. apply Forall_fmap, Forall_forall.
  intros [a v] _. by eexists _, _.
Qed.

(** Put of an object of a known type that is not in the graveyard succeeds
    on such a metabase, and leaves such a metabase. *)
Lemma put_indexesWF tx obj blzID :
  indexesWF tx →
  is_Some (typedBucketName (Type_ obj) (ObjContainerID obj)) →
  inGraveyard tx (AddressOf obj) = false →
  ∃ tx', put tx obj blzID = Ok tx' ∧ indexesWF tx'.
Proof.
  intros Hwf [bn Hbn] Hgrave.
  assert (Hbn' : isIndexBucket bn = false) by (by eapply typedBucketName_not_index).
  assert (Hbn'' : ∀ c, bn ≠ bucketNameLocked c)
    by (intros c ->; destruct (Type_ obj); simpl in Hbn; congruence).
  unfold put. cbn [AddressOf addrCID addrOID]. rewrite Hgrave, Hbn.
  set (tx1 := bucketPut tx bn _ _).
  assert (Hwf1 : indexesWF tx1) by (by apply indexesWF_bucketPut_other).
  set (tx2 := match blzID with Some _ => _ | None => tx1 end).
  assert (Hwf2 : indexesWF tx2).
  { unfold tx2. destruct blzID; [|done]. by apply indexesWF_bucketPut_other. }
  set (tx3 := match ParentID obj with None => _ | Some _ => tx2 end).
  assert (Hwf3 : indexesWF tx3).
  { unfold tx3. destruct (ParentID obj); [done|]. by apply indexesWF_bucketPut_other. }
  unfold updateListIndexes, updateFKBTIndexes.
  destruct (putList_indexesWF _ (listIndexes_parent_names obj) tx3 Hwf3)
    as (tx4 & -> & Hwf4).
  cbn [rbind]. by apply (putFKBT_indexesWF _ (fkbtIndexes_attribute_names obj)).
Qed.

Lemma put_removed tx obj blzID :
  inGraveyard tx (AddressOf obj) = true → put tx obj blzID = Err ObjectAlreadyRemoved.
Proof. unfold put. cbn [AddressOf addrCID addrOID]. by intros ->. Qed.

(** Nothing is locked, so Inhume succeeds; it writes the graveyard only. *)
Lemma inhume_indexesWF tx tomb target :
  indexesWF tx →
  ∃ tx', inhume tx tomb target = Ok tx' ∧ indexesWF tx'.
Proof.
  intros (Hpar & Hattr & Hlocked). unfold inhume.
  assert (Hfree : existsb (objectLocked tx) target = false).
  { apply not_true_is_false. rewrite existsb_exists.
    intros (a & _ & Ha). unfold objectLocked in Ha. by rewrite Hlocked in Ha. }
  rewrite Hfree. eexists. split; [done|].
  destruct (inhume_fold tomb target tx) as [Hother _].
  repeat split.
  - intros c k v. rewrite Hother by done. apply Hpar.
  - intros c a k v. rewrite Hother by done. apply Hattr.
  - intros c k. rewrite Hother by done. apply Hlocked.
Qed.

(** *** The calls of a refill on the bolt metabase *)

(** The Put of the handler: made, and passed over when it answers
    AlreadyRemoved. *)
Lemma traced_Put tx calls obj blzID :
  indexesWF tx →
  is_Some (typedBucketName (Type_ obj) (ObjContainerID obj)) →
  ∃ tx' res,
    Put (MetaBase := tracedMetaBase) obj blzID (tx, calls)
      = ((tx', calls ++ [CallPut obj blzID]), res)
    ∧ (res = None ∨ res = Some ObjectAlreadyRemoved)
    ∧ indexesWF tx'.
Proof.
  intros Hwf Htype. cbn [Put tracedMetaBase fst snd]. unfold Update.
  destruct (inGraveyard tx (AddressOf obj)) eqn:Hgrave.
  - rewrite (put_removed _ _ _ Hgrave). exists tx, (Some ObjectAlreadyRemoved). auto.
  - destruct (put_indexesWF tx obj blzID Hwf Htype Hgrave) as (tx' & -> & Hwf').
    exists tx', None. auto.
Qed.

(** The handler on an object that decodes and is of a known type: the
    specified calls, and no error. *)
Lemma traced_refillObject members tx calls obj blzID :
  indexesWF tx →
  (Type_ obj = TypeTombstone → ∃ ids, members (Payload obj) = Ok ids) →
  is_Some (typedBucketName (Type_ obj) (ObjContainerID obj)) →
  ∃ tx',
    refillObject (MB := tracedMetaBase) members obj blzID (tx, calls)
      = ((tx', calls ++ specifiedCallsOf members (obj, blzID)), None)
    ∧ indexesWF tx'.
Proof.
  intros Hwf Hdec Htype. unfold refillObject, specifiedCallsOf. cbn [fst snd].
  destruct (decide (Type_ obj = TypeTombstone)) as [Ht|Ht].
  - destruct (Hdec Ht) as [ids ->].
    cbn [Inhume tracedMetaBase fst snd]. unfold Update.
    destruct (inhume_indexesWF tx (AddressOf obj)
                ((λ id, mkAddress (addrCID (AddressOf obj)) id) <$> ids) Hwf)
      as (tx1 & -> & Hwf1).
    destruct (traced_Put tx1 (calls ++ [CallInhume (AddressOf obj)
                ((λ id, mkAddress (addrCID (AddressOf obj)) id) <$> ids)])
                obj blzID Hwf1 Htype) as (tx2 & res & -> & Hres & Hwf2).
    exists tx2. split; [|done]. rewrite <- app_assoc.
    by destruct Hres as [->| ->].
  - destruct (traced_Put tx calls obj blzID Hwf Htype) as (tx2 & res & -> & Hres & Hwf2).
    exists tx2. split; [|done]. by destruct Hres as [->| ->].
Qed.

Lemma traced_IterateObjects members blobs : ∀ tx calls,
  indexesWF tx →
  decodable members blobs →
  knownTypes blobs →
  ∃ tx',
    IterateObjects blobs (refillObject (MB := tracedMetaBase) members) (tx, calls)
      = (((tx', calls ++ concat (specifiedCallsOf members <$> blobs)), []), None).
Proof.
  induction blobs as [|[obj blzID] blobs IH]; intros tx calls Hwf Hdec Htypes.
  - exists tx. cbn. by rewrite app_nil_r.
  - inversion Hdec as [|? ? Hobj Hrest]; subst.
    inversion Htypes as [|? ? Htype Htypes']; subst.
    cbn [IterateObjects fmap list_fmap concat].
    destruct (traced_refillObject members tx calls obj blzID Hwf Hobj Htype)
      as (tx1 & -> & Hwf1).
    destruct (IH tx1 (calls ++ specifiedCallsOf members (obj, blzID)) Hwf1 Hrest Htypes')
      as (tx2 & ->).
    exists tx2. by rewrite <- app_assoc.
Qed.



End RefillFacts.

(** ** Delete: what it removes and what it leaves *)

Module DeleteExtras.
Import Meta StoreFacts MetaFacts DeleteFacts.

(** The sample metabases have well-formed header buckets. *)
Lemma headersWF_txSplit : headersWF txSplit.
Proof.
  apply (put_headersWF (Update ∅ (λ tx, put tx (plainChild 11) None)).1
           (plainChild 12) None); [|by_vm|by_vm].
  apply (put_headersWF ∅ (plainChild 11) None); [apply headersWF_empty|by_vm|by_vm].
Qed.

Lemma deleteGroupIn_split tx addrs order tx' :
  deleteGroupIn tx addrs order = Ok tx' →
  ∃ tx1 rc, deleteEach tx addrs ∅ = Ok (tx1, rc)
            ∧ removeParents tx1 (obj <$> fullyCounted (order rc)) = Ok tx'.
Proof.
  unfold deleteGroupIn. intros Hrun.
  destruct (deleteEach tx addrs ∅) as [[tx1 rc]|] eqn:Heach; [|done].
  rewrite deleteParents_fullyCounted in Hrun. eauto.
Qed.

(** X1.  A successful group deletion creates no entry in any bucket, and
    outside the parent and attribute index buckets every entry it leaves is
    an entry that was there, unchanged. *)
Theorem deleteGroup_only_removes
    (tx : Tx) (addrs : list Address)
    (order : referenceCounter → list referenceNumber) (tx' : Tx) :
  deleteGroupIn tx addrs order = Ok tx' →
  ∀ n k,
    (getFromBucket tx n k = None → getFromBucket tx' n k = None)
    ∧ (isIndexBucket n = false →
       ∀ v, getFromBucket tx' n k = Some v → getFromBucket tx n k = Some v).
Proof.
  intros Hrun. apply deleteGroupIn_split in Hrun as (tx1 & rc & Heach & Hpar).
  change (onlyRemoves tx tx').
  eapply onlyRemoves_trans;
    [by eapply deleteEach_onlyRemoves|by eapply removeParents_onlyRemoves].
Qed.

Lemma deleteGroup_only_removes_witness :
  let addrs := [AddressOf (plainChild 11)] in
  let order := λ rc : referenceCounter, (map_to_list rc).*2 in
  let tx' := (Delete txSplit addrs).1 in
  deleteGroupIn txSplit addrs order = Ok tx'
  ∧ getFromBucket tx' (primaryBucketName 1) (objectKey 11) = None
  ∧ getFromBucket tx' (primaryBucketName 1) (objectKey 12)
    = getFromBucket txSplit (primaryBucketName 1) (objectKey 12)
  ∧ (getFromBucket txSplit graveyardBucketName (addressKey (mkAddress 1 12)) = None →
     getFromBucket tx' graveyardBucketName (addressKey (mkAddress 1 12)) = None).
Proof.
  intros addrs order tx'.
  assert (Hrun : deleteGroupIn txSplit addrs order = Ok tx') by by_vm.
  split; [exact Hrun|]. split; [by_vm|]. split; [by_vm|].
  apply (deleteGroup_only_removes txSplit addrs order tx' Hrun).
Defined.

(** [delete] removes the graveyard record of its address, whatever else it
    finds. *)
Lemma delete_graveyard_record tx a rc tx' rc' :
  delete tx a rc = Ok (tx', rc') →
  getFromBucket tx' graveyardBucketName (addressKey a) = None.
Proof.
  intros Hrun. unfold delete in Hrun.
  set (tx0 := bucketDelete tx graveyardBucketName (addressKey a)) in *.
  assert (Hgrave0 : getFromBucket tx0 graveyardBucketName (addressKey a) = None)
    by apply getFromBucket_bucketDelete_eq.
  destruct (get tx0 a false true) as [child|err].
  - destruct (deleteObject tx0 child false) as [tx2|] eqn:Hdel; [|done].
    injection Hrun as <- _. by apply (deleteObject_onlyRemoves _ _ _ _ Hdel).
  - destruct (IsErrNotFound err); [|done]. by injection Hrun as <- _.
Qed.

Lemma deleteEach_graveyard_records addrs : ∀ tx rc tx' rc' a,
  a ∈ addrs →
  deleteEach tx addrs rc = Ok (tx', rc') →
  getFromBucket tx' graveyardBucketName (addressKey a) = None.
Proof.
  induction addrs as [|a0 rest IH]; intros tx rc tx' rc' a Hin Hrun.
  - by apply elem_of_nil in Hin.
  - cbn [deleteEach] in Hrun.
    destruct (delete tx a0 rc) as [[tx1 rc1]|] eqn:Hdel; [|done].
    apply elem_of_cons in Hin as [->|Hin]; [|by eapply IH].
    apply (deleteEach_onlyRemoves _ _ _ _ _ Hrun).
    by eapply delete_graveyard_record.
Qed.

(** X2.  After a successful group deletion no address of the batch has a
    record in the graveyard, stored or not. *)
Theorem deleteGroup_clears_graveyard
    (tx : Tx) (addrs : list Address)
    (order : referenceCounter → list referenceNumber) (tx' : Tx) (a : Address) :
  deleteGroupIn tx addrs order = Ok tx' →
  a ∈ addrs →
  getFromBucket tx' graveyardBucketName (addressKey a) = None.
Proof.
  intros Hrun Hin. apply deleteGroupIn_split in Hrun as (tx1 & rc & Heach & Hpar).
  apply (removeParents_onlyRemoves _ _ _ Hpar).
  by eapply deleteEach_graveyard_records.
Qed.

Lemma deleteGroup_clears_graveyard_witness :
  let a := AddressOf sampleObject in
  let order := λ rc : referenceCounter, (map_to_list rc).*2 in
  let tx' := (Delete txInhumed [a]).1 in
  getFromBucket txInhumed graveyardBucketName (addressKey a)
    = Some (VAddr sampleTombAddress)
  ∧ deleteGroupIn txInhumed [a] order = Ok tx'
  ∧ a ∈ [a]
  ∧ getFromBucket tx' graveyardBucketName (addressKey a) = None.
Proof.
  intros a order tx'.
  assert (Hrun : deleteGroupIn txInhumed [a] order = Ok tx') by by_vm.
  assert (Hin : a ∈ [a]) by apply list_elem_of_here.
  split; [by_vm|]. split; [exact Hrun|]. split; [exact Hin|].
  apply (deleteGroup_clears_graveyard txInhumed [a] order tx' a Hrun Hin).
Defined.

(** X3.  On a metabase with well-formed header buckets, a successful group
    deletion leaves no header for any address of the batch, and the header
    buckets stay well formed. *)
Theorem deleteGroup_removes_headers
    (tx : Tx) (addrs : list Address)
    (order : referenceCounter → list referenceNumber) (tx' : Tx) (a : Address) :
  headersWF tx →
  deleteGroupIn tx addrs order = Ok tx' →
  a ∈ addrs →
  getHeader tx' a = None ∧ headersWF tx'.
Proof.
  intros Hwf Hrun Hin.
  apply deleteGroupIn_split in Hrun as (tx1 & rc & Heach & Hpar).
  split.
  - apply (cleared_onlyRemoves tx1 tx' a);
      [by eapply removeParents_onlyRemoves|by eapply deleteEach_clears].
  - eapply headersWF_onlyRemoves; [by eapply removeParents_onlyRemoves|].
    eapply headersWF_onlyRemoves; [by eapply deleteEach_onlyRemoves|done].
Qed.

Lemma deleteGroup_removes_headers_witness :
  let a := AddressOf (plainChild 11) in
  let order := λ rc : referenceCounter, (map_to_list rc).*2 in
  let tx' := (Delete txSplit [a]).1 in
  headersWF txSplit
  ∧ deleteGroupIn txSplit [a] order = Ok tx'
  ∧ a ∈ [a]
  ∧ getHeader txSplit a = Some (VObject (plainChild 11))
  ∧ getHeader tx' a = None.
Proof.
  intros a order tx'.
  assert (Hrun : deleteGroupIn txSplit [a] order = Ok tx') by by_vm.
  assert (Hin : a ∈ [a]) by apply list_elem_of_here.
  split; [exact headersWF_txSplit|]. split; [exact Hrun|]. split; [exact Hin|].
  split; [by_vm|].
  apply (deleteGroup_removes_headers txSplit [a] order tx' a
           headersWF_txSplit Hrun Hin).
Defined.

(** *** deleteObject *)

Lemma fkbtIndexes_attributes_names o :
  Forall (λ item, ∃ c a, name item = attributeBucketName c a) (fkbtIndexes o).
Proof.
  unfold fkbtIndexes. apply Forall_fmap, Forall_forall.
  intros [a v] _. by eexists _, _.
Qed.

Lemma delListIndexItem_total tx item : ∃ tx', delListIndexItem tx item = Ok tx'.
Proof.
  unfold delListIndexItem.
  destruct (TxBucket tx (name item)); [|eauto].
  destruct (decodeList _) as [[|x lst]|]; eauto.
  destruct (removeFirst _ _); eauto.
Qed.

Lemma delFKBTIndexItem_total tx item : ∃ tx', delFKBTIndexItem tx item = Ok tx'.
Proof.
  unfold delFKBTIndexItem.
  destruct (TxBucket tx (name item)); [|eauto].
  destruct (_ !! _) as [[]|]; eauto.
Qed.

Lemma updateIndexes_total f items :
  (∀ tx item, ∃ tx', f tx item = Ok tx') →
  ∀ tx, ∃ tx', updateIndexes f tx items = Ok tx'.
Proof.
  intros Hf. induction items as [|item items IH]; intros tx; [by exists tx|].
  cbn [updateIndexes]. destruct (Hf tx item) as [tx1 ->]. apply IH.
Qed.

(** X7.  deleteObject fails in one case only: the object is deleted as a
    stored object, not as a parent, and its type is none of the four known
    ones; the error is then the bare message, without the cause. *)
Theorem deleteObject_fails_iff
    (tx : Tx) (obj : Object) (isParent : bool) (err : Error) :
  deleteObject tx obj isParent = Err err
  ↔ isParent = false
    ∧ (∃ n, Type_ obj = TypeOther n)
    ∧ err = ErrMsg "can't remove unique indexes".
Proof.
  unfold deleteObject.
  assert (Hrest : ∀ tx1, ∃ tx3,
            match updateListIndexes tx1 obj delListIndexItem with
            | Ok tx2 =>
              match updateFKBTIndexes tx2 obj delFKBTIndexItem with
              | Ok tx3 => Ok tx3
              | Err e => Err (ErrWrap "can't remove fake bucket tree indexes" e)
              end
            | Err e => Err (ErrWrap "can't remove list indexes" e)
            end = Ok tx3).
  { intros tx1. unfold updateListIndexes, updateFKBTIndexes.
    destruct (updateIndexes_total delListIndexItem (listIndexes obj)
                delListIndexItem_total tx1) as [tx2 ->].
    destruct (updateIndexes_total delFKBTIndexItem (fkbtIndexes obj)
                delFKBTIndexItem_total tx2) as [tx3 ->].
    by exists tx3. }
  unfold delUniqueIndexes. destruct isParent; cbn [negb rbind].
  - destruct (Hrest (delUniqueIndexItem
                (delUniqueIndexItem
                   (delUniqueIndexItem
                      (delUniqueIndexItem tx (parentBucketName (ObjContainerID obj))
                         (objectKey (addrOID (AddressOf obj))))
                      (smallBucketName (addrCID (AddressOf obj)))
                      (objectKey (addrOID (AddressOf obj))))
                   (rootBucketName (addrCID (AddressOf obj)))
                   (objectKey (addrOID (AddressOf obj))))
                toMoveItBucketName (addressKey (AddressOf obj)))) as [tx3 ->].
    split; [done|]. by intros [? _].
  - destruct (Type_ obj) as [| | | |n] eqn:Htype; cbn [rbind].
    5: { split; [intros [= <-]; repeat split; eauto|by intros (_ & _ & ->)]. }
    all: lazymatch goal with
         | |- context [updateListIndexes ?t _ delListIndexItem] =>
           destruct (Hrest t) as [tx3 Heq]; rewrite Heq
         end.
    all: split; [done|]; by intros (_ & [n Hn] & _).
Qed.

(** X8.  deleteObject of a parent touches the parent's entry in the parent
    index, its blob reference, its root marker and its to-move mark, and the
    index buckets; every header and every graveyard record stays as it is. *)
Theorem deleteObject_parent_untouched
    (tx : Tx) (parent : Object) (tx' : Tx) (n : BucketName) (k : Key) :
  deleteObject tx parent true = Ok tx' →
  isIndexBucket n = false →
  n ≠ smallBucketName (ObjContainerID parent) →
  n ≠ rootBucketName (ObjContainerID parent) →
  n ≠ toMoveItBucketName →
  getFromBucket tx' n k = getFromBucket tx n k.
Proof.
  unfold deleteObject. intros Hrun Hn Hsmall Hroot Hmove.
  destruct (delUniqueIndexes tx parent true) as [tx1|] eqn:H1; [|done].
  destruct (updateListIndexes tx1 parent delListIndexItem) as [tx2|] eqn:H2; [|done].
  destruct (updateFKBTIndexes tx2 parent delFKBTIndexItem) as [tx3|] eqn:H3; [|done].
  injection Hrun as <-.
  rewrite (updateIndexes_untouched _ _ delFKBTIndexItem_local _ _ _ _ H3)
    by (apply index_items_elsewhere; [apply fkbtIndexes_names|done]).
  rewrite (updateIndexes_untouched _ _ delListIndexItem_local _ _ _ _ H2)
    by (apply index_items_elsewhere; [apply listIndexes_names|done]).
  unfold delUniqueIndexes, delUniqueIndexItem in H1. cbn [negb rbind] in H1.
  injection H1 as <-. simpl.
  rewrite !getFromBucket_bucketDelete_ne; try done; left; try done.
  intros <-. done.
Qed.

Lemma deleteObject_parent_untouched_witness :
  let tx' := match deleteObject txSplit plainParent true with
             | Ok tx' => tx'
             | Err _ => ∅
             end in
  deleteObject txSplit plainParent true = Ok tx'
  ∧ getFromBucket tx' (parentBucketName 1) (objectKey 100) = None
  ∧ getFromBucket tx' (primaryBucketName 1) (objectKey 11)
    = getFromBucket txSplit (primaryBucketName 1) (objectKey 11).
Proof.
  intros tx'.
  assert (Hrun : deleteObject txSplit plainParent true = Ok tx') by by_vm.
  split; [exact Hrun|]. split; [by_vm|].
  by apply (deleteObject_parent_untouched txSplit plainParent tx'
              (primaryBucketName 1) (objectKey 11) Hrun).
Defined.

(** *** The list index *)

Lemma removeFirst_app v l1 l2 :
  v ∉ l1 → removeFirst v (l1 ++ v :: l2) = l1 ++ l2.
Proof.
  induction l1 as [|x l1 IH]; intros Hnot; simpl.
  - by rewrite decide_True.
  - apply not_elem_of_cons in Hnot as [Hx Hl1].
    rewrite decide_False by done. by rewrite IH.
Qed.

Lemma removeFirst_absent v l : v ∉ l → removeFirst v l = l.
Proof.
  induction l as [|x l IH]; intros Hnot; [done|]. simpl.
  apply not_elem_of_cons in Hnot as [Hx Hl].
  rewrite decide_False by done. by rewrite IH.
Qed.

Lemma getFromBucket_Some_inv tx n k v :
  getFromBucket tx n k = Some v →
  ∃ bkt, TxBucket tx n = Some bkt ∧ bkt !! k = Some v.
Proof.
  unfold getFromBucket. destruct (TxBucket tx n) as [bkt|]; [|done].
  simpl. eauto.
Qed.

(** What delListIndexItem writes when the value is in the list. *)
Lemma delListIndexItem_run tx item l1 l2 :
  getFromBucket tx (name item) (key item) = Some (VList (l1 ++ val item :: l2)) →
  val item ∉ l1 →
  delListIndexItem tx item =
    Ok (match l1 ++ l2 with
        | [] => bucketDelete tx (name item) (key item)
        | lst => bucketPut tx (name item) (key item) (VList lst)
        end).
Proof.
  intros Hentry Hnot.
  destruct (getFromBucket_Some_inv _ _ _ _ Hentry) as (bkt & Hbkt & Hkey).
  unfold delListIndexItem. rewrite Hbkt, Hkey. cbn [decodeList].
  destruct (l1 ++ val item :: l2) as [|x lst] eqn:Hlst.
  { by destruct l1. }
  rewrite <- Hlst, (removeFirst_app _ _ _ Hnot). by destruct (l1 ++ l2).
Qed.

(** X12.  delListIndexItem drops the first occurrence of the item's value
    from the list stored under the item's key and keeps the rest in order;
    when nothing is left the key is removed from the bucket; no other entry
    of the store changes. *)
Theorem delListIndexItem_removes_first
    (tx : Tx) (item : namedBucketItem) (l1 l2 : list ObjectID) :
  getFromBucket tx (name item) (key item) = Some (VList (l1 ++ val item :: l2)) →
  val item ∉ l1 →
  ∃ tx', delListIndexItem tx item = Ok tx'
    ∧ getFromBucket tx' (name item) (key item)
      = (if decide (l1 ++ l2 = []) then None else Some (VList (l1 ++ l2)))
    ∧ ∀ n k, n ≠ name item ∨ k ≠ key item →
             getFromBucket tx' n k = getFromBucket tx n k.
Proof.
  intros Hentry Hnot. eexists. split; [by apply delListIndexItem_run|].
  destruct (l1 ++ l2) as [|y rest].
  - rewrite decide_True by done. split.
    + apply getFromBucket_bucketDelete_eq.
    + intros n k Hother. apply getFromBucket_bucketDelete_ne.
      destruct Hother; [left|right]; congruence.
  - rewrite decide_False by done. split.
    + apply getFromBucket_bucketPut_eq.
    + intros n k Hother. apply getFromBucket_bucketPut_ne.
      destruct Hother; [left|right]; congruence.
Qed.

Lemma delListIndexItem_removes_first_witness :
  let item := mkItem (parentBucketName 1) (objectKey 100) 11%N in
  getFromBucket txSplit (name item) (key item)
    = Some (VList ([] ++ val item :: [12%N]))
  ∧ (val item ∉ ([] : list N))
  ∧ ∃ tx', delListIndexItem txSplit item = Ok tx'
      ∧ getFromBucket tx' (name item) (key item) = Some (VList [12%N]).
Proof.
  intros item.
  assert (Hentry : getFromBucket txSplit (name item) (key item)
                   = Some (VList ([] ++ val item :: [12%N]))) by by_vm.
  assert (Hnot : val item ∉ ([] : list N)) by apply not_elem_of_nil.
  split; [exact Hentry|]. split; [exact Hnot|].
  destruct (delListIndexItem_removes_first txSplit item [] [12%N] Hentry Hnot)
    as (tx' & Hrun & Hlist & _).
  exists tx'. split; [exact Hrun|exact Hlist].
Defined.

(** X13.  delListIndexItem changes nothing that can be read when the value
    is not in the list: the bucket or the key is missing, the data is no
    list, the list is empty or does not contain the value. *)
Theorem delListIndexItem_absent (tx : Tx) (item : namedBucketItem) :
  (∀ lst, getFromBucket tx (name item) (key item) = Some (VList lst) →
          val item ∉ lst) →
  ∃ tx', delListIndexItem tx item = Ok tx'
    ∧ ∀ n k, getFromBucket tx' n k = getFromBucket tx n k.
Proof.
  intros Hnot. unfold delListIndexItem.
  destruct (TxBucket tx (name item)) as [bkt|] eqn:Hbkt; [|by exists tx].
  rewrite (TxBucket_lookup _ _ _ (key item) Hbkt).
  destruct (getFromBucket tx (name item) (key item)) as [[hdr|lst| | | |]|] eqn:Hentry;
    cbn [decodeList]; try by exists tx.
  destruct lst as [|x lst]; [by exists tx|].
  rewrite (removeFirst_absent _ _ (Hnot _ eq_refl)).
  eexists. split; [done|]. intros n k. rewrite getFromBucket_bucketPut.
  case_decide as Hd; [|done]. by destruct Hd as [<- <-].
Qed.

Lemma delListIndexItem_absent_witness :
  let item := mkItem (parentBucketName 1) (objectKey 100) 99%N in
  (∀ lst, getFromBucket txSplit (name item) (key item) = Some (VList lst) →
          val item ∉ lst)
  ∧ ∃ tx', delListIndexItem txSplit item = Ok tx'
      ∧ getFromBucket tx' (parentBucketName 1) (objectKey 100)
        = Some (VList [11%N; 12%N]).
Proof.
  intros item.
  assert (Hentry : getFromBucket txSplit (name item) (key item)
                   = Some (VList [11%N; 12%N])) by by_vm.
  assert (Hnot : ∀ lst, getFromBucket txSplit (name item) (key item) = Some (VList lst) →
                        val item ∉ lst).
  { intros lst. rewrite Hentry. intros [= <-]. simpl.
    intros Hin. apply elem_of_cons in Hin as [Hin|Hin]; [discriminate|].
    apply elem_of_cons in Hin as [Hin|Hin]; [discriminate|].
    by apply elem_of_nil in Hin. }
  split; [exact Hnot|].
  destruct (delListIndexItem_absent txSplit item Hnot) as (tx' & Hrun & Hsame).
  exists tx'. split; [exact Hrun|]. rewrite Hsame. exact Hentry.
Defined.

Lemma parentLength_getFromBucket tx c o :
  parentLength tx (mkAddress c o) =
    match decodeList (getFromBucket tx (parentBucketName c) (objectKey o)) with
    | Ok lst => length lst
    | Err _ => 0
    end.
Proof.
  unfold parentLength, getFromBucket. simpl.
  by destruct (TxBucket tx (parentBucketName c)).
Qed.

(** X10.  Deleting a stored child takes it off the child list of its parent
    in the parent index: parentLength of the parent goes down by one, and
    the parent's key is gone when the child was the last one. *)
Theorem deleteObject_child_leaves_list
    (tx : Tx) (child : Object) (pid : ObjectID) (l1 l2 : list ObjectID) (tx' : Tx) :
  ParentID child = Some pid →
  getFromBucket tx (parentBucketName (ObjContainerID child)) (objectKey pid)
    = Some (VList (l1 ++ ID child :: l2)) →
  ID child ∉ l1 →
  deleteObject tx child false = Ok tx' →
  getFromBucket tx' (parentBucketName (ObjContainerID child)) (objectKey pid)
    = (if decide (l1 ++ l2 = []) then None else Some (VList (l1 ++ l2)))
  ∧ parentLength tx (mkAddress (ObjContainerID child) pid) = S (length (l1 ++ l2))
  ∧ parentLength tx' (mkAddress (ObjContainerID child) pid) = length (l1 ++ l2).
Proof.
  intros Hpid Hentry Hnot Hrun.
  assert (Hlist : getFromBucket tx' (parentBucketName (ObjContainerID child))
                    (objectKey pid)
                  = (if decide (l1 ++ l2 = []) then None else Some (VList (l1 ++ l2)))).
  { unfold deleteObject in Hrun.
    destruct (delUniqueIndexes tx child false) as [tx1|] eqn:H1; [|done].
    destruct (updateListIndexes tx1 child delListIndexItem) as [tx2|] eqn:H2; [|done].
    destruct (updateFKBTIndexes tx2 child delFKBTIndexItem) as [tx3|] eqn:H3; [|done].
    injection Hrun as <-.
    rewrite (updateIndexes_untouched _ _ delFKBTIndexItem_local _ _ _ _ H3).
    2: { eapply Forall_impl; [apply fkbtIndexes_attributes_names|].
         intros item (c0 & a0 & Hname). left. by rewrite Hname. }
    assert (Hentry1 : getFromBucket tx1 (parentBucketName (ObjContainerID child))
                        (objectKey pid) = Some (VList (l1 ++ ID child :: l2))).
    { rewrite <- Hentry. unfold delUniqueIndexes, delUniqueIndexItem in H1.
      cbn [negb] in H1.
      destruct (Type_ child); cbn [rbind] in H1; try done; injection H1 as <-;
        simpl; by rewrite !getFromBucket_bucketDelete_ne by (by left). }
    unfold updateListIndexes, listIndexes in H2. rewrite Hpid in H2.
    cbn [updateIndexes] in H2.
    rewrite (delListIndexItem_run tx1
               (mkItem (parentBucketName (ObjContainerID child)) (objectKey pid)
                       (ID child)) l1 l2 Hentry1 Hnot) in H2.
    cbn [rbind name key] in H2. injection H2 as <-.
    destruct (l1 ++ l2) as [|y rest].
    - rewrite decide_True by done. apply getFromBucket_bucketDelete_eq.
    - rewrite decide_False by done. apply getFromBucket_bucketPut_eq. }
  split; [exact Hlist|].
  rewrite !parentLength_getFromBucket, Hentry, Hlist. cbn [decodeList].
  split; [rewrite !length_app; simpl; lia|].
  by destruct (decide (l1 ++ l2 = [])) as [->|].
Qed.

Lemma deleteObject_child_leaves_list_witness :
  let tx' := match deleteObject txSplit (plainChild 11) false with
             | Ok tx' => tx'
             | Err _ => ∅
             end in
  ParentID (plainChild 11) = Some 100%N
  ∧ getFromBucket txSplit (parentBucketName 1) (objectKey 100)
    = Some (VList ([] ++ 11%N :: [12%N]))
  ∧ (11%N ∉ ([] : list N))
  ∧ deleteObject txSplit (plainChild 11) false = Ok tx'
  ∧ parentLength txSplit (mkAddress 1 100) = 2
  ∧ parentLength tx' (mkAddress 1 100) = 1.
Proof.
  intros tx'.
  assert (Hentry : getFromBucket txSplit (parentBucketName 1) (objectKey 100)
                   = Some (VList ([] ++ 11%N :: [12%N]))) by by_vm.
  assert (Hnot : 11%N ∉ ([] : list N)) by apply not_elem_of_nil.
  assert (Hrun : deleteObject txSplit (plainChild 11) false = Ok tx') by by_vm.
  split; [reflexivity|]. split; [exact Hentry|]. split; [exact Hnot|].
  split; [exact Hrun|].
  apply (deleteObject_child_leaves_list txSplit (plainChild 11) 100%N [] [12%N] tx'
           eq_refl Hentry Hnot Hrun).
Defined.

(** *** The reference counter's bounds *)

Lemma deleteTrace_length addrs : ∀ tx, length (deleteTrace tx addrs) ≤ length addrs.
Proof.
  induction addrs as [|a rest IH]; intros tx; simpl; [lia|].
  destruct (delete tx a ∅) as [[tx' rc]|]; simpl; [specialize (IH tx')|]; lia.
Qed.



(** *** Addresses the metabase does not know *)

Lemma dropGraveyardRecords_entry addrs : ∀ tx n k,
  getFromBucket (dropGraveyardRecords tx addrs) n k =
    if decide (n = graveyardBucketName ∧ k ∈ addressKey <$> addrs) then None
    else getFromBucket tx n k.
Proof.
  unfold dropGraveyardRecords.
  induction addrs as [|a rest IH]; intros tx n k; cbn [foldl fmap list_fmap].
  - rewrite decide_False; [done|]. intros [_ Hin]. by apply elem_of_nil in Hin.
  - rewrite IH, getFromBucket_bucketDelete.
    destruct (decide (n = graveyardBucketName ∧ k ∈ addressKey <$> rest)) as [[Hn Hin]|Hrest].
    + rewrite decide_True; [done|]. split; [done|]. by apply elem_of_cons; right.
    + destruct (decide (graveyardBucketName = n ∧ addressKey a = k)) as [[<- <-]|Hhead].
      * rewrite decide_True; [done|]. split; [done|]. apply list_elem_of_here.
      * rewrite decide_False; [done|]. intros [-> Hin].
        apply elem_of_cons in Hin as [->|Hin]; [by apply Hhead|by apply Hrest].
Qed.

Lemma deleteEach_absent addrs : ∀ tx rc,
  (∀ a, a ∈ addrs →
        getHeader tx a = None
        ∧ getFromBucket tx (parentBucketName (addrCID a)) (objectKey (addrOID a)) = None) →
  deleteEach tx addrs rc = Ok (dropGraveyardRecords tx addrs, rc).
Proof.
  induction addrs as [|a rest IH]; intros tx rc Habsent; [done|].
  cbn [deleteEach]. destruct (Habsent a (list_elem_of_here _ _)) as [Hhdr Hpar].
  rewrite (delete_absent _ _ _ Hhdr Hpar).
  unfold dropGraveyardRecords. cbn [foldl]. apply IH.
  intros b Hb. destruct (Habsent b) as [Hhdrb Hparb]; [by apply elem_of_cons; right|].
  split.
  - apply getHeader_None. intros t n Hn.
    rewrite getFromBucket_bucketDelete_ne
      by (left; destruct t; simpl in Hn; congruence).
    by apply (proj1 (getHeader_None tx b) Hhdrb t n).
  - by rewrite getFromBucket_bucketDelete_ne by (by left).
Qed.

(** X5.  Delete of addresses under which nothing is stored (no header, no
    child list) succeeds, removes the graveyard records of these addresses
    and changes nothing else. *)
Theorem Delete_unknown_addresses (tx : Tx) (addrs : list Address) :
  (∀ a, a ∈ addrs →
        getHeader tx a = None
        ∧ getFromBucket tx (parentBucketName (addrCID a)) (objectKey (addrOID a)) = None) →
  ∃ tx', Delete tx addrs = (tx', None)
    ∧ ∀ n k, getFromBucket tx' n k =
        if decide (n = graveyardBucketName ∧ k ∈ addressKey <$> addrs) then None
        else getFromBucket tx n k.
Proof.
  intros Habsent. exists (dropGraveyardRecords tx addrs). split.
  - unfold Delete, Update, deleteGroup.
    rewrite (deleteEach_absent addrs tx ∅ Habsent).
    by rewrite map_to_list_empty.
  - apply dropGraveyardRecords_entry.
Qed.

Lemma Delete_unknown_addresses_witness :
  (∀ a, a ∈ [strayAddress] →
        getHeader txStrayGrave a = None
        ∧ getFromBucket txStrayGrave (parentBucketName (addrCID a))
            (objectKey (addrOID a)) = None)
  ∧ getFromBucket txStrayGrave graveyardBucketName (addressKey strayAddress)
    = Some (VAddr sampleTombAddress)
  ∧ ∃ tx', Delete txStrayGrave [strayAddress] = (tx', None)
      ∧ getFromBucket tx' graveyardBucketName (addressKey strayAddress) = None
      ∧ getFromBucket tx' (primaryBucketName 1) (objectKey 20)
        = getFromBucket txStrayGrave (primaryBucketName 1) (objectKey 20).
Proof.
  assert (Habsent : ∀ a, a ∈ [strayAddress] →
            getHeader txStrayGrave a = None
            ∧ getFromBucket txStrayGrave (parentBucketName (addrCID a))
                (objectKey (addrOID a)) = None).
  { intros a Hin. apply list_elem_of_singleton in Hin as ->. split; by_vm. }
  split; [exact Habsent|]. split; [by_vm|].
  destruct (Delete_unknown_addresses txStrayGrave [strayAddress] Habsent)
    as (tx' & Hrun & Hentries).
  exists tx'. split; [exact Hrun|]. split.
  - rewrite Hentries. rewrite decide_True; [done|]. split; [done|]. apply list_elem_of_here.
  - rewrite Hentries. by rewrite decide_False by (by intros [? _]).
Defined.

(** *** What a deletion leaves in the header buckets *)

Lemma deleteObject_typed_entry tx o isParent tx' t c n k :
  deleteObject tx o isParent = Ok tx' →
  typedBucketName t c = Some n →
  isParent = true ∨ c ≠ ObjContainerID o ∨ k ≠ objectKey (ID o) →
  getFromBucket tx' n k = getFromBucket tx n k.
Proof.
  unfold deleteObject. intros Hrun Hn Hother.
  pose proof (typedBucketName_not_index _ _ _ Hn) as Hidx.
  destruct (delUniqueIndexes tx o isParent) as [tx1|] eqn:H1; [|done].
  destruct (updateListIndexes tx1 o delListIndexItem) as [tx2|] eqn:H2; [|done].
  destruct (updateFKBTIndexes tx2 o delFKBTIndexItem) as [tx3|] eqn:H3; [|done].
  injection Hrun as <-.
  rewrite (updateIndexes_untouched _ _ delFKBTIndexItem_local _ _ _ _ H3)
    by (apply index_items_elsewhere; [apply fkbtIndexes_names|done]).
  rewrite (updateIndexes_untouched _ _ delListIndexItem_local _ _ _ _ H2)
    by (apply index_items_elsewhere; [apply listIndexes_names|done]).
  unfold delUniqueIndexes, delUniqueIndexItem in H1.
  destruct isParent; cbn [negb rbind] in H1.
  - injection H1 as <-. simpl.
    rewrite !getFromBucket_bucketDelete_ne; try done; left;
      destruct t; simpl in Hn; congruence.
  - destruct Hother as [Hp|Hother]; [done|].
    destruct (Type_ o); cbn [rbind] in H1; try done; injection H1 as <-; simpl.
    all: rewrite !getFromBucket_bucketDelete_ne; try done.
    all: try (left; destruct t; simpl in Hn; congruence).
    all: destruct Hother as [Hc|Hk]; [left|right; congruence].
    all: destruct t; simpl in Hn; congruence.
Qed.

Lemma delete_typed_entry tx a rc tx' rc' t c n k :
  headersWF tx →
  delete tx a rc = Ok (tx', rc') →
  typedBucketName t c = Some n →
  c ≠ addrCID a ∨ k ≠ objectKey (addrOID a) →
  getFromBucket tx' n k = getFromBucket tx n k.
Proof.
  intros Hwf Hrun Hn Hother. unfold delete in Hrun.
  set (tx0 := bucketDelete tx graveyardBucketName (addressKey a)) in *.
  assert (Hwf0 : headersWF tx0)
    by (eapply headersWF_onlyRemoves; [apply onlyRemoves_bucketDelete|done]).
  assert (H0 : getFromBucket tx0 n k = getFromBucket tx n k).
  { apply getFromBucket_bucketDelete_ne. left. destruct t; simpl in Hn; congruence. }
  destruct (get tx0 a false true) as [child|err] eqn:Hget.
  - destruct (deleteObject tx0 child false) as [tx2|] eqn:Hdel; [|done].
    injection Hrun as <- _. rewrite <- H0.
    apply get_raw_Ok, getHeader_Some in Hget as (t0 & n0 & Hn0 & Hentry).
    destruct Hwf0 as [Hwf0 _].
    destruct (Hwf0 _ _ _ _ _ Hn0 Hentry) as (hdr & [= <-] & Ht & Hc & [= Hid]).
    apply (deleteObject_typed_entry _ _ _ _ _ _ _ _ Hdel Hn). right.
    rewrite Hc, <- Hid. done.
  - destruct (IsErrNotFound err); [|done]. by injection Hrun as <- _.
Qed.

Lemma deleteEach_typed_entry addrs : ∀ tx rc tx' rc' t c n k,
  headersWF tx →
  deleteEach tx addrs rc = Ok (tx', rc') →
  typedBucketName t c = Some n →
  (∀ a, a ∈ addrs → c ≠ addrCID a ∨ k ≠ objectKey (addrOID a)) →
  getFromBucket tx' n k = getFromBucket tx n k.
Proof.
  induction addrs as [|a rest IH]; intros tx rc tx' rc' t c n k Hwf Hrun Hn Hother.
  - by injection Hrun as <- _.
  - cbn [deleteEach] in Hrun.
    destruct (delete tx a rc) as [[tx1 rc1]|] eqn:Hdel; [|done].
    rewrite (IH tx1 rc1 tx' rc' t c n k); [| |done|done|].
    + eapply delete_typed_entry; [done|done|done|]. apply Hother, list_elem_of_here.
    + eapply headersWF_onlyRemoves; [by eapply delete_onlyRemoves|done].
    + intros b Hb. apply Hother. by apply elem_of_cons; right.
Qed.

Lemma removeParents_typed_entry parents : ∀ tx tx' t c n k,
  removeParents tx parents = Ok tx' →
  typedBucketName t c = Some n →
  getFromBucket tx' n k = getFromBucket tx n k.
Proof.
  induction parents as [|parent rest IH]; intros tx tx' t c n k Hrun Hn.
  - by injection Hrun as <-.
  - cbn [removeParents] in Hrun.
    destruct (deleteObject tx parent true) as [tx1|] eqn:Hdel; [|done].
    rewrite (IH _ _ _ _ _ _ Hrun Hn).
    apply (deleteObject_typed_entry _ _ _ _ _ _ _ _ Hdel Hn). by left.
Qed.

Lemma getHeader_ext tx1 tx2 a :
  (∀ t n, typedBucketName t (addrCID a) = Some n →
          getFromBucket tx1 n (objectKey (addrOID a))
          = getFromBucket tx2 n (objectKey (addrOID a))) →
  getHeader tx1 a = getHeader tx2 a.
Proof.
  intros Hsame. unfold getHeader.
  rewrite (Hsame TypeRegular _ eq_refl), (Hsame TypeTombstone _ eq_refl),
          (Hsame TypeStorageGroup _ eq_refl), (Hsame TypeLock _ eq_refl).
  done.
Qed.

(** X4.  On a metabase with well-formed header buckets, a successful group
    deletion leaves the header of every address outside the batch as it was:
    the removal of a parent with its last child removes index entries only,
    never a stored header. *)
Theorem deleteGroup_keeps_other_headers
    (tx : Tx) (addrs : list Address)
    (order : referenceCounter → list referenceNumber) (tx' : Tx) (b : Address) :
  headersWF tx →
  deleteGroupIn tx addrs order = Ok tx' →
  b ∉ addrs →
  getHeader tx' b = getHeader tx b.
Proof.
  intros Hwf Hrun Hout.
  apply deleteGroupIn_split in Hrun as (tx1 & rc & Heach & Hpar).
  apply getHeader_ext. intros t n Hn.
  rewrite (removeParents_typed_entry _ _ _ _ _ _ _ Hpar Hn).
  apply (deleteEach_typed_entry _ _ _ _ _ _ _ _ _ Hwf Heach Hn).
  intros a Hin.
  destruct (decide (addrCID b = addrCID a)) as [Hc|Hc]; [|by left].
  right. intros [= Ho]. apply Hout.
  destruct a, b; simpl in *; by subst.
Qed.

Lemma deleteGroup_keeps_other_headers_witness :
  let addrs := [AddressOf (plainChild 11)] in
  let b := AddressOf (plainChild 12) in
  let order := λ rc : referenceCounter, (map_to_list rc).*2 in
  let tx' := (Delete txSplit addrs).1 in
  headersWF txSplit
  ∧ deleteGroupIn txSplit addrs order = Ok tx'
  ∧ (b ∉ addrs)
  ∧ getHeader tx' b = Some (VObject (plainChild 12)).
Proof.
  intros addrs b order tx'.
  assert (Hrun : deleteGroupIn txSplit addrs order = Ok tx') by by_vm.
  assert (Hout : b ∉ addrs).
  { intros Hin. apply list_elem_of_singleton in Hin. discriminate Hin. }
  split; [exact headersWF_txSplit|]. split; [exact Hrun|]. split; [exact Hout|].
  rewrite (deleteGroup_keeps_other_headers txSplit addrs order tx' b
             headersWF_txSplit Hrun Hout).
  by_vm.
Defined.

(** *** What deleteObject removes *)

(** X9.  deleteObject leaves no blob reference, no root marker and no
    to-move mark of the object, and removes its header from the bucket of
    its type, or, for a parent, the parent's entry in the parent index. *)
Theorem deleteObject_clears_unique_entries
    (tx : Tx) (o : Object) (isParent : bool) (tx' : Tx) :
  deleteObject tx o isParent = Ok tx' →
  let cnr := ObjContainerID o in
  let objKey := objectKey (ID o) in
  getFromBucket tx' (smallBucketName cnr) objKey = None
  ∧ getFromBucket tx' (rootBucketName cnr) objKey = None
  ∧ getFromBucket tx' toMoveItBucketName (addressKey (AddressOf o)) = None
  ∧ (if isParent then getFromBucket tx' (parentBucketName cnr) objKey = None
     else ∀ n, typedBucketName (Type_ o) cnr = Some n →
               getFromBucket tx' n objKey = None).
Proof.
  unfold deleteObject. intros Hrun.
  destruct (delUniqueIndexes tx o isParent) as [tx1|] eqn:H1; [|done].
  destruct (updateListIndexes tx1 o delListIndexItem) as [tx2|] eqn:H2; [|done].
  destruct (updateFKBTIndexes tx2 o delFKBTIndexItem) as [tx3|] eqn:H3; [|done].
  injection Hrun as <-.
  assert (Hkeep : ∀ n k, getFromBucket tx1 n k = None → getFromBucket tx3 n k = None).
  { intros n k Hnone.
    apply (updateIndexes_onlyRemoves delFKBTIndexItem _ delFKBTIndexItem_onlyRemoves
             (fkbtIndexes_names o) _ _ H3).
    by apply (updateIndexes_onlyRemoves delListIndexItem _ delListIndexItem_onlyRemoves
                (listIndexes_names o) _ _ H2). }
  unfold delUniqueIndexes, delUniqueIndexItem in H1.
  cbn [AddressOf addrCID addrOID] in H1.
  assert (Hstays : ∀ t n k n' k',
            getFromBucket t n k = None →
            getFromBucket (bucketDelete t n' k') n k = None).
  { intros t n k n' k' Hnone. rewrite getFromBucket_bucketDelete. by case_decide. }
  destruct isParent; cbn [negb rbind] in H1.
  - injection H1 as <-. cbv zeta. repeat split; apply Hkeep;
      repeat first [apply getFromBucket_bucketDelete_eq | apply Hstays].
  - destruct (Type_ o); cbn [rbind typedBucketName] in H1 |- *; try done;
      injection H1 as <-; cbv zeta; repeat split; try intros n [= <-]; apply Hkeep;
      repeat first [apply getFromBucket_bucketDelete_eq | apply Hstays].
Qed.

Lemma deleteObject_clears_unique_entries_witness :
  let tx' := match deleteObject txStored plainObject false with
             | Ok tx' => tx'
             | Err _ => ∅
             end in
  deleteObject txStored plainObject false = Ok tx'
  ∧ getFromBucket txStored (rootBucketName 1) (objectKey 20) = Some VMark
  ∧ getFromBucket tx' (rootBucketName 1) (objectKey 20) = None.
Proof.
  intros tx'.
  assert (Hrun : deleteObject txStored plainObject false = Ok tx') by by_vm.
  split; [exact Hrun|]. split; [by_vm|].
  exact (proj1 (proj2 (deleteObject_clears_unique_entries txStored plainObject false
                         tx' Hrun))).
Defined.

Lemma delFKBTIndexItem_entry tx item tx' n k :
  delFKBTIndexItem tx item = Ok tx' →
  getFromBucket tx' n k =
    match getFromBucket tx n k with
    | Some (VSubBucket ids) =>
      Some (VSubBucket (if decide (name item = n ∧ key item = k)
                        then ids ∖ {[val item]} else ids))
    | other => other
    end.
Proof.
  intros Hrun.
  destruct (decide (name item = n ∧ key item = k)) as [[<- <-]|Hne].
  - unfold delFKBTIndexItem in Hrun.
    destruct (TxBucket tx (name item)) as [bkt|] eqn:Hbkt.
    + rewrite (TxBucket_lookup _ _ _ (key item) Hbkt) in Hrun.
      destruct (getFromBucket tx (name item) (key item)) as [[]|] eqn:Hentry;
        injection Hrun as <-; try done.
      by rewrite getFromBucket_bucketPut_eq.
    + injection Hrun as <-. rewrite (TxBucket_None _ _ _ Hbkt). done.
  - rewrite (delFKBTIndexItem_local tx item tx' n k Hrun).
    + by destruct (getFromBucket tx n k) as [[]|].
    + destruct (decide (name item = n)); [right|by left].
      intros Hk. by apply Hne.
Qed.

Lemma delFKBT_fold id items : ∀ tx tx' n k,
  Forall (λ item, val item = id) items →
  updateIndexes delFKBTIndexItem tx items = Ok tx' →
  getFromBucket tx' n k =
    match getFromBucket tx n k with
    | Some (VSubBucket ids) =>
      Some (VSubBucket
              (if decide ((n, k) ∈ (λ item, (name item, key item)) <$> items)
               then ids ∖ {[id]} else ids))
    | other => other
    end.
Proof.
  induction items as [|item items IH]; intros tx tx' n k Hval Hrun.
  - injection Hrun as <-. destruct (getFromBucket tx n k) as [[]|]; try done.
  - cbn [updateIndexes] in Hrun.
    destruct (delFKBTIndexItem tx item) as [tx1|] eqn:H1; [|done].
    cbn [rbind] in Hrun. inversion Hval as [|? ? Hid Hrest]; subst.
    rewrite (IH _ _ _ _ Hrest Hrun), (delFKBTIndexItem_entry _ _ _ n k H1).
    destruct (getFromBucket tx n k) as [[| | | | |ids]|]; try done.
    f_equal. f_equal. cbn [fmap list_fmap].
    destruct (decide (name item = n ∧ key item = k)) as [[Hn Hk]|Hhead];
      destruct (decide ((n, k) ∈ (λ item, (name item, key item)) <$> items))
        as [Hin|Hout].
    + rewrite decide_True by (subst; apply list_elem_of_here).
      apply difference_twice_L.
    + rewrite decide_True by (subst; apply list_elem_of_here). done.
    + rewrite decide_True by (by apply elem_of_cons; right). done.
    + rewrite decide_False; [done|]. intros Hin.
      apply elem_of_cons in Hin as [[= -> ->]|Hin]; [by apply Hhead|by apply Hout].
Qed.

(** X11.  deleteObject takes the object's identifier out of the set kept for
    each of its attribute values in the attribute index of its container,
    and leaves every other entry of the attribute indexes as it is. *)
Theorem deleteObject_attribute_index
    (tx : Tx) (o : Object) (isParent : bool) (tx' : Tx)
    (c : ContainerID) (a v : string) :
  deleteObject tx o isParent = Ok tx' →
  getFromBucket tx' (attributeBucketName c a) (attrKey v) =
    match getFromBucket tx (attributeBucketName c a) (attrKey v) with
    | Some (VSubBucket ids) =>
      Some (VSubBucket (if decide (c = ObjContainerID o ∧ (a, v) ∈ Attributes o)
                        then ids ∖ {[ID o]} else ids))
    | other => other
    end.
Proof.
  unfold deleteObject. intros Hrun.
  destruct (delUniqueIndexes tx o isParent) as [tx1|] eqn:H1; [|done].
  destruct (updateListIndexes tx1 o delListIndexItem) as [tx2|] eqn:H2; [|done].
  destruct (updateFKBTIndexes tx2 o delFKBTIndexItem) as [tx3|] eqn:H3; [|done].
  injection Hrun as <-.
  assert (H12 : getFromBucket tx2 (attributeBucketName c a) (attrKey v)
                = getFromBucket tx (attributeBucketName c a) (attrKey v)).
  { rewrite (updateIndexes_untouched _ _ delListIndexItem_local _ _ _ _ H2).
    2: { unfold listIndexes.
         destruct (ParentID o); [constructor; [by left|constructor]|constructor]. }
    unfold delUniqueIndexes, delUniqueIndexItem in H1.
    destruct isParent; cbn [negb rbind] in H1.
    - injection H1 as <-. simpl.
      by rewrite !getFromBucket_bucketDelete_ne by (by left).
    - destruct (Type_ o); cbn [rbind] in H1; try done; injection H1 as <-; simpl;
        by rewrite !getFromBucket_bucketDelete_ne by (by left). }
  rewrite (delFKBT_fold (ID o) (fkbtIndexes o) tx2 tx3 _ _); [|  |exact H3].
  2: { unfold fkbtIndexes. apply Forall_fmap, Forall_forall. by intros [a0 v0] _. }
  rewrite H12.
  destruct (getFromBucket tx (attributeBucketName c a) (attrKey v)) as [[| | | | |ids]|];
    try done.
  f_equal. f_equal. apply decide_ext.
  unfold fkbtIndexes. rewrite <- list_fmap_compose, list_elem_of_fmap. split.
  - intros ([a0 v0] & [= -> -> ->] & Hin). done.
  - intros [-> Hin]. by exists (a, v).
Qed.

Lemma deleteObject_attribute_index_witness :
  let tx' := match deleteObject txChild sampleChild false with
             | Ok tx' => tx'
             | Err _ => ∅
             end in
  deleteObject txChild sampleChild false = Ok tx'
  ∧ getFromBucket txChild (attributeBucketName 1 "foo") (attrKey "bar")
    = Some (VSubBucket {[11%N]})
  ∧ getFromBucket tx' (attributeBucketName 1 "foo") (attrKey "bar")
    = Some (VSubBucket ({[11%N]} ∖ {[11%N]})).
Proof.
  intros tx'.
  assert (Hrun : deleteObject txChild sampleChild false = Ok tx') by by_vm.
  assert (Hentry : getFromBucket txChild (attributeBucketName 1 "foo") (attrKey "bar")
                   = Some (VSubBucket {[11%N]})) by by_vm.
  split; [exact Hrun|]. split; [exact Hentry|].
  rewrite (deleteObject_attribute_index txChild sampleChild false tx' 1 "foo" "bar" Hrun).
  rewrite Hentry. rewrite decide_True; [done|].
  split; [done|]. apply list_elem_of_here.
Defined.

End DeleteExtras.

(** ** The shard and the engine: failures, Init and the refill's calls *)

Module ControlExtras.
Import Shard ShardFacts.

(** *** Open *)

Lemma Open_components s :
  (let components := [blobStor; metaBase] in
   if hasWriteCache s then components ++ [writeCache] else components) = openOrder s.
Proof. unfold openOrder. by destruct (hasWriteCache s). Qed.

Lemma openComponents_failure s pre c post err : ∀ log,
  Forall (λ c', openErr s c' = None) pre →
  openErr s c = Some err →
  openComponents s (pre ++ c :: post) log
    = (log ++ (EvOpen <$> pre ++ [c]), Some (ErrWrap "could not open" err)).
Proof.
  induction pre as [|c0 pre IH]; intros log Hpre Hc; simpl.
  - by rewrite Hc.
  - inversion Hpre as [|? ? Hc0 Hrest]; subst. rewrite Hc0, IH by done.
    by rewrite <- app_assoc.
Qed.

(** X14.  Open ends at the first component that fails to open: the
    components before it in the order have been opened and stay open, the
    failing one has been tried, those after it are not touched, and the
    error returned is the component's, wrapped. *)
Theorem Open_stops_at_first_failure
    (s : Shard) (log : list Event) (pre post : list Component) (c : Component)
    (err : Error) :
  openOrder s = pre ++ c :: post →
  Forall (λ c', openErr s c' = None) pre →
  openErr s c = Some err →
  Open s log = (log ++ (EvOpen <$> pre ++ [c]), Some (ErrWrap "could not open" err)).
Proof.
  intros Horder Hpre Hc. unfold Open. rewrite Open_components, Horder.
  by apply openComponents_failure.
Qed.

Lemma Open_stops_at_first_failure_witness :
  openOrder shardMetaFails = [blobStor] ++ metaBase :: [writeCache]
  ∧ Forall (λ c', openErr shardMetaFails c' = None) [blobStor]
  ∧ openErr shardMetaFails metaBase = Some ErrIO
  ∧ Open shardMetaFails []
    = ([EvOpen blobStor; EvOpen metaBase], Some (ErrWrap "could not open" ErrIO)).
Proof.
  assert (Hpre : Forall (λ c', openErr shardMetaFails c' = None) [blobStor])
    by (by repeat constructor).
  split; [reflexivity|]. split; [exact Hpre|]. split; [reflexivity|].
  apply (Open_stops_at_first_failure shardMetaFails [] [blobStor] [writeCache]
           metaBase ErrIO eq_refl Hpre eq_refl).
Defined.

(** *** Init *)

Section init.

Context {M : Type} {MB : MetaBase M}.
Variable members : list N → Result (list ObjectID).

(** X15.  Init runs blobStor.Init, then the metabase step (the refill when
    the shard is configured for it, metaBase.Init otherwise), then
    writeCache.Init when there is a write cache, and starts the GC last.  It
    ends at the first step that fails, with that step's error wrapped as
    "could not initialize": the steps after it are not run and the GC is
    not started; when blobStor.Init fails the metabase is not touched.  When
    no step fails it returns no error and leaves the metabase as the
    metabase step made it. *)
Theorem Init_outcome (s : Shard) (env : InitEnv M) (blobs : BlobStor)
    (m : M) (log : list InitEvent) :
  let step := metabaseStep members env blobs m in
  let stepEvent := if needRefillMetabase env then EvRefill else EvInit metaBase in
  (∀ err, blobStorInit env = Some err →
     Init members s env blobs (m, log)
       = ((m, log ++ [EvInit blobStor]), Some (ErrWrap "could not initialize" err)))
  ∧ (∀ err, blobStorInit env = None → step.2 = Some err →
     Init members s env blobs (m, log)
       = ((step.1, log ++ [EvInit blobStor; stepEvent]),
          Some (ErrWrap "could not initialize" err)))
  ∧ (∀ err, blobStorInit env = None → step.2 = None →
            hasWriteCache s = true → writeCacheInit env = Some err →
     Init members s env blobs (m, log)
       = ((step.1, log ++ [EvInit blobStor; stepEvent; EvInit writeCache]),
          Some (ErrWrap "could not initialize" err)))
  ∧ (blobStorInit env = None → step.2 = None →
     (hasWriteCache s = true → writeCacheInit env = None) →
     Init members s env blobs (m, log)
       = ((step.1, log ++ initOrder s env ++ [EvGCInit]), None)).
Proof.
  unfold Init, metabaseStep, initOrder.
  destruct (needRefillMetabase env);
    [destruct (refillMetabase members blobs m) as [m' [e2|]] eqn:Hstep
    |destruct (metaBaseInit env m) as [m' [e2|]] eqn:Hstep].
  all: destruct (blobStorInit env) as [e1|], (hasWriteCache s),
                (writeCacheInit env) as [e3|]; cbn; rewrite ?Hstep; cbn.
  all: rewrite <- ?app_assoc; cbn [app].
  all: repeat split; try done.
  all: try (by intros err [= <-]).
  all: try (by intros err _ [= <-]).
  all: try (by intros err _ _ _ [= <-]).
  all: try (by intros _ _ Hw; specialize (Hw eq_refl)).
Qed.

End init.

(** *** The calls of a refill *)

Lemma refillStep_calls members fails blob :
  (refillStep members fails blob).1 `prefix_of` specifiedCallsOf members blob
  ∧ ((refillStep members fails blob).2 = None →
     (refillStep members fails blob).1 = specifiedCallsOf members blob).
Proof.
  unfold refillStep, specifiedCallsOf. destruct blob as [o blzID]. cbn [fst snd].
  destruct (decide (Type_ o = TypeTombstone)) as [Ht|Ht].
  - destruct (members (Payload o)) as [ids|err]; cbn [fst snd app].
    2: { split; [apply prefix_nil|done]. }
    destruct (fails (CallInhume _ _)) as [err|]; cbn [fst snd].
    { split; [|done]. by exists [CallPut o blzID]. }
    destruct (fails (CallPut o blzID)) as [err|]; cbn [fst snd]; [|done].
    by destruct (IsErrRemoved err).
  - cbn [app]. destruct (fails (CallPut o blzID)) as [err|]; cbn [fst snd]; [|done].
    by destruct (IsErrRemoved err).
Qed.

Lemma refillSteps_calls members fails blobs :
  (refillSteps members fails blobs).1
    `sublist_of` concat (specifiedCallsOf members <$> blobs)
  ∧ ((refillSteps members fails blobs).2 = [] →
     (refillSteps members fails blobs).1 = concat (specifiedCallsOf members <$> blobs)).
Proof.
  induction blobs as [|blob blobs [IHs IHe]]; [done|].
  cbn [refillSteps fmap list_fmap concat].
  destruct (refillStep_calls members fails blob) as [Hp He].
  destruct (refillStep members fails blob) as [cs res]; cbn [fst snd] in *.
  destruct (refillSteps members fails blobs) as [cs' log]; cbn [fst snd] in *.
  split.
  - apply sublist_app; [|done]. destruct Hp as [k ->]. by apply sublist_inserts_r.
  - destruct res as [failure|]; [done|]. intros Hlog.
    by rewrite (He eq_refl), (IHe Hlog).
Qed.

(** X16.  Whatever the metabase answers to the calls, a refill calls Reset
    first, and the calls it makes after that are, in this order, calls of
    the sequence that lists, per stored object in the order of the scan,
    the Inhume of a tombstone and then the Put of the object: no call is
    made out of this order and none twice. *)
Theorem refill_calls_in_order
    (members : list N → Result (list ObjectID)) (fails : Call → option Error)
    (blobs : BlobStor) (calls : list Call) :
  ∃ made,
    (refillMetabase (MB := recordingMetaBase fails) members blobs calls).1
      = calls ++ CallReset :: made
    ∧ made `sublist_of` concat (specifiedCallsOf members <$> blobs).
Proof.
  unfold refillMetabase. cbn [Reset recordingMetaBase].
  destruct (fails CallReset) as [err|]; cbn [fst snd].
  - exists []. split; [done|]. apply sublist_nil_l.
  - rewrite IterateObjects_steps. cbn [fst snd].
    exists (refillSteps members fails blobs).1. split; [by rewrite <- app_assoc|].
    apply refillSteps_calls.
Qed.

Lemma refillSteps_tolerant members fails blobs :
  (∀ tomb target, fails (CallInhume tomb target) = None) →
  (∀ o blzID err, fails (CallPut o blzID) = Some err → IsErrRemoved err = true) →
  Forall (λ blob, Type_ blob.1 = TypeTombstone → ∃ ids, members (Payload blob.1) = Ok ids)
         blobs →
  refillSteps members fails blobs
    = (concat (specifiedCallsOf members <$> blobs), []).
Proof.
  intros Hinhume Hput. induction 1 as [|[o blzID] blobs Hobj _ IH]; [done|].
  cbn [refillSteps fmap list_fmap concat]. rewrite IH.
  unfold refillStep, specifiedCallsOf. cbn [fst snd] in *.
  assert (Hstep : match fails (CallPut o blzID) with
                  | Some err => if IsErrRemoved err then ([CallPut o blzID], None)
                                else ([CallPut o blzID], Some err)
                  | None => ([CallPut o blzID], None)
                  end = ([CallPut o blzID], None)).
  { destruct (fails (CallPut o blzID)) as [err|] eqn:Hf; [|done].
    by rewrite (Hput _ _ _ Hf). }
  rewrite Hstep.
  destruct (decide (Type_ o = TypeTombstone)) as [Ht|Ht]; [|done].
  destruct (Hobj Ht) as [ids ->]. by rewrite Hinhume.
Qed.



End ControlExtras.

Module EngineExtras.
Import Engine EngineFacts.

(** X18.  The engine-level existence check reports the failures of exactly
    the shards it asks: those that come, in the order of the walk, before
    the first shard that answers AlreadyRemoved. The error counter of a
    shard grows by the number of failures it reported there, the shards
    after the stop are not asked and not counted, and the set of shards is
    not changed. *)
Theorem exists_error_counters
    (sort : Address → list hashedShard → list hashedShard)
    (e : StorageEngine) (addr : Address) :
  shards (exists_ sort e addr).1 = shards e
  ∧ ∀ id, errorsOf (exists_ sort e addr).1 id
          = errorsOf e id
            + failuresOf addr id (askedBeforeRemoved addr (sort addr (shards e))).
Proof.
  unfold exists_, iterateOverSortedShards.
  destruct (iterateShards_counters addr (sort addr (shards e)) 0 (mkVars e false false))
    as [Hshs Hcnt].
  simpl in *. by destruct (alreadyRemoved _).
Qed.

End EngineExtras.
